(** * Job lifecycle engine of the Cloud Distributed Transcode Pipeline

    A shallow embedding of the worker runtime (package [main] of the worker,
    [src/unnamed/part_013]: [processJob], [handleJobFailure], [markJobFailed],
    [retryDelays], the main loop), of the queue consumer
    ([Lock], [Unlock], [Pop], [Push], [PushDeadLetter]), of the
    sqlc queries it runs ([StartJobProcessing], [UpdateJobStatus],
    [IncrementRetryCount], [GetRenditionsByJobID], [UpdateRenditionOutputKey])
    and of the REST handler [CreateJob] with its queries ([CreateJob],
    [CreateRendition]); further the FFmpeg transcoder profiles, the storage
    handlers [GetUploadURL] and [GetDownloadURL], [uuidToString], the worker
    configuration, the Redis lock with its time to live ([Lock], [Unlock],
    [ExtendLock]) and the stale-job queries ([GetStaleJobs],
    [ResetStalledJob]).

    The Postgres tables are lists of rows; the Redis lists [jobs:pending] and
    [jobs:dead] are lists with [LPUSH] as cons and [BRPOP] taking the last
    element; lock keys [job:lock:{id}] are an association list. Timestamps
    are seconds as [Z]. Row ids are held as the strings [uuidToString]
    gives; the worker parses each dequeued token with [uuid.Parse]
    ([github.com/google/uuid], modelled below), queries the row by the
    parsed id and names the output files after the token as dequeued. *)

From Stdlib Require Import String Ascii ZArith List Bool Lia DecimalString.
From Stdlib Require Import Sorting.Permutation Sorting.Sorted.
Import ListNotations.
Open Scope Z_scope.

(* ------------------------------------------------------------------ *)
(** ** Rows of the [jobs] and [renditions] tables *)

Inductive job_status := Queued | Processing | Completed | Failed.

Definition job_status_eqb (a b : job_status) : bool :=
  match a, b with
  | Queued, Queued | Processing, Processing
  | Completed, Completed | Failed, Failed => true
  | _, _ => false
  end.

Record Job := mkJob {
  job_id : string;
  input_key : string;
  status : job_status;
  error_message : option string;
  retry_count : Z;
  max_retries : Z;
  started_at : option Z;
  worker_id : option string
}.

Record Rendition := mkRendition {
  rend_id : nat;
  rend_job_id : string;
  resolution : string;
  output_key : option string
}.

Record DB := mkDB {
  jobs : list Job;
  renditions : list Rendition;
  next_rend_id : nat
}.

(** [UPDATE ... WHERE p SET f RETURNING *] with sqlc's [:one]: every matching
    row is rewritten, the first rewritten row is returned, and no matching row
    is [pgx.ErrNoRows] ([None]). *)
Definition update_jobs (p : Job -> bool) (f : Job -> Job) (db : DB)
  : option Job * DB :=
  (option_map f (find p (jobs db)),
   mkDB (map (fun j => if p j then f j else j) (jobs db))
        (renditions db) (next_rend_id db)).

(** [-- name: GetJob :one  SELECT * FROM jobs WHERE id = $1] *)
Definition GetJob (db : DB) (id : string) : option Job :=
  find (fun j => String.eqb (job_id j) id) (jobs db).

(** Stall horizon of [StartJobProcessing]: [INTERVAL '10 minutes']. *)
Definition stall_horizon : Z := 600.

(** The [WHERE] clause of [StartJobProcessing]:
    [id = $1 AND (status = 'queued' OR (status = 'processing'
     AND started_at < NOW() - INTERVAL '10 minutes'))].
    A NULL [started_at] makes the comparison NULL, hence not true. *)
Definition claimable (now : Z) (id : string) (j : Job) : bool :=
  String.eqb (job_id j) id &&
  (job_status_eqb (status j) Queued ||
   (job_status_eqb (status j) Processing &&
    match started_at j with
    | Some t => t <? now - stall_horizon
    | None => false
    end)).

(** [-- name: StartJobProcessing :one]
    [UPDATE jobs SET status = 'processing', worker_id = $2, started_at = NOW(),
     error_message = NULL WHERE <claimable> RETURNING *] *)
Definition StartJobProcessing (db : DB) (now : Z) (id wid : string)
  : option Job * DB :=
  update_jobs (claimable now id)
    (fun j => mkJob (job_id j) (input_key j) Processing None
                    (retry_count j) (max_retries j) (Some now) (Some wid))
    db.

(** [-- name: UpdateJobStatus :one]
    [UPDATE jobs SET status = $2, error_message = $3 WHERE id = $1 RETURNING *] *)
Definition UpdateJobStatus (db : DB) (id : string) (st : job_status)
  (msg : option string) : option Job * DB :=
  update_jobs (fun j => String.eqb (job_id j) id)
    (fun j => mkJob (job_id j) (input_key j) st msg
                    (retry_count j) (max_retries j) (started_at j) (worker_id j))
    db.

(** [-- name: IncrementRetryCount :one]
    [UPDATE jobs SET status = 'queued', retry_count = retry_count + 1,
     worker_id = NULL, started_at = NULL WHERE id = $1 RETURNING *] *)
Definition IncrementRetryCount (db : DB) (id : string) : option Job * DB :=
  update_jobs (fun j => String.eqb (job_id j) id)
    (fun j => mkJob (job_id j) (input_key j) Queued (error_message j)
                    (retry_count j + 1) (max_retries j) None None)
    db.

(** [-- name: UpdateRenditionOutputKey :one]
    [UPDATE renditions SET output_key = $2 WHERE id = $1 RETURNING *] *)
Definition UpdateRenditionOutputKey (db : DB) (rid : nat) (key : string)
  : option Rendition * DB :=
  let p := fun r => Nat.eqb (rend_id r) rid in
  let f := fun r => mkRendition (rend_id r) (rend_job_id r) (resolution r) (Some key) in
  (option_map f (find p (renditions db)),
   mkDB (jobs db) (map (fun r => if p r then f r else r) (renditions db))
        (next_rend_id db)).

(** [ORDER BY resolution]: insertion sort on the resolution text (the
    database collation is taken to be the byte order). *)
Fixpoint insert_by_resolution (r : Rendition) (l : list Rendition) : list Rendition :=
  match l with
  | [] => [r]
  | x :: l' => if String.leb (resolution r) (resolution x) then r :: x :: l'
               else x :: insert_by_resolution r l'
  end.

Fixpoint sort_by_resolution (l : list Rendition) : list Rendition :=
  match l with
  | [] => []
  | x :: l' => insert_by_resolution x (sort_by_resolution l')
  end.

(** [-- name: GetRenditionsByJobID :many
     SELECT * FROM renditions WHERE job_id = $1 ORDER BY resolution] *)
Definition GetRenditionsByJobID (db : DB) (id : string) : list Rendition :=
  sort_by_resolution
    (filter (fun r => String.eqb (rend_job_id r) id) (renditions db)).

(* ------------------------------------------------------------------ *)
(** ** Go's [path/filepath] and [strings] helpers used by [processJob]
    (Unix separator ['/']). *)

Definition is_slash (c : ascii) : bool := Ascii.eqb c "/"%char.
Definition is_dot (c : ascii) : bool := Ascii.eqb c "."%char.

Fixpoint drop_while (p : ascii -> bool) (l : list ascii) : list ascii :=
  match l with
  | [] => []
  | c :: l' => if p c then drop_while p l' else l
  end.

Fixpoint take_while (p : ascii -> bool) (l : list ascii) : list ascii :=
  match l with
  | [] => []
  | c :: l' => if p c then c :: take_while p l' else []
  end.

(** [filepath.Base]: "" gives "."; trailing slashes are stripped; the last
    element is kept; a path of slashes only gives "/". Computed on the
    reversed characters. *)
Definition go_base (path : string) : string :=
  match path with
  | EmptyString => "."
  | _ =>
      let r := drop_while is_slash (rev (list_ascii_of_string path)) in
      match take_while (fun c => negb (is_slash c)) r with
      | [] => "/"
      | name_rev => string_of_list_ascii (rev name_rev)
      end
  end.

(** The loop of [filepath.Ext]: scanning from the end, stop at a ['/'];
    the first ['.'] met starts the extension. [acc] holds the characters
    already scanned, in their original order. *)
Fixpoint ext_scan (r : list ascii) (acc : list ascii) : option (list ascii) :=
  match r with
  | [] => None
  | c :: r' =>
      if is_slash c then None
      else if is_dot c then Some (c :: acc)
      else ext_scan r' (c :: acc)
  end.

(** [filepath.Ext] *)
Definition go_ext (path : string) : string :=
  match ext_scan (rev (list_ascii_of_string path)) [] with
  | Some e => string_of_list_ascii e
  | None => ""
  end.

(** [strings.TrimSuffix] *)
Definition trim_suffix (s suffix : string) : string :=
  let n := String.length s in
  let k := String.length suffix in
  if Nat.leb k n && String.eqb (substring (n - k) k s) suffix
  then substring 0 (n - k) s else s.

(** [inputBase := filepath.Base(job.InputKey)]
    [inputName := strings.TrimSuffix(inputBase, filepath.Ext(inputBase))] *)
Definition input_name (input_key : string) : string :=
  let inputBase := go_base input_key in
  trim_suffix inputBase (go_ext inputBase).

(** [outputKey := fmt.Sprintf("outputs/%s/%s_%s.mp4", jobIDStr, inputName,
     r.Resolution)] *)
Definition output_key_for (jobIDStr inputName res : string) : string :=
  ("outputs/" ++ jobIDStr ++ "/" ++ inputName ++ "_" ++ res ++ ".mp4")%string.

(* ------------------------------------------------------------------ *)
(** ** [uuidToString] ([apps/api/internal/handler/jobs.go]) *)

(** [pgtype.UUID]: the 16 bytes and the NULL flag. *)
Record PgUUID := mkPgUUID { uuid_bytes : list Byte.byte; uuid_valid : bool }.

Definition hex_digit (n : nat) : ascii :=
  match nth_error (list_ascii_of_string "0123456789abcdef") n with
  | Some c => c
  | None => "0"%char
  end.

(** [hex.Encode] of one byte: high nibble first, lower-case digits. *)
Definition hex_byte (b : Byte.byte) : list ascii :=
  [hex_digit (Byte.to_nat b / 16); hex_digit (Byte.to_nat b mod 16)].

Definition hex_encode (bs : list Byte.byte) : list ascii := flat_map hex_byte bs.

(** [uuid.UUID.String]: xxxxxxxx-xxxx-xxxx-xxxx-xxxxxxxxxxxx. *)
Definition uuid_string (bs : list Byte.byte) : string :=
  string_of_list_ascii
    (hex_encode (firstn 4 bs) ++ "-"%char :: hex_encode (firstn 2 (skipn 4 bs)) ++
     "-"%char :: hex_encode (firstn 2 (skipn 6 bs)) ++
     "-"%char :: hex_encode (firstn 2 (skipn 8 bs)) ++
     "-"%char :: hex_encode (skipn 10 bs)).

(** [uuidToString] *)
Definition uuidToString (u : PgUUID) : string :=
  if uuid_valid u then uuid_string (uuid_bytes u) else "".

(* ------------------------------------------------------------------ *)
(** ** [uuid.Parse] ([github.com/google/uuid]), which the worker applies to
    every dequeued token *)

(** [xvalues[c]]: the value of a hexadecimal digit of either case. *)
Definition xvalue (c : ascii) : option nat :=
  let n := nat_of_ascii c in
  if Nat.leb 48 n && Nat.leb n 57 then Some (n - 48)%nat
  else if Nat.leb 97 n && Nat.leb n 102 then Some (n - 87)%nat
  else if Nat.leb 65 n && Nat.leb n 70 then Some (n - 55)%nat
  else None.

(** [xtob(x1, x2)]: the byte written [x1 x2] in hexadecimal, if both are
    digits. *)
Definition xtob (x1 x2 : ascii) : option Byte.byte :=
  match xvalue x1, xvalue x2 with
  | Some b1, Some b2 => Byte.of_nat (b1 * 16 + b2)
  | _, _ => None
  end.

(** The bytes [xtob(s[x], s[x+1])] for the offsets [x] of [xs]; [None] at
    the first pair that is not hexadecimal. *)
Fixpoint xtob_at (s : list ascii) (xs : list nat) : option (list Byte.byte) :=
  match xs with
  | [] => Some []
  | x :: xs' =>
      match nth_error s x, nth_error s (S x) with
      | Some c1, Some c2 =>
          match xtob c1 c2 with
          | Some v => option_map (cons v) (xtob_at s xs')
          | None => None
          end
      | _, _ => None
      end
  end.

(** The offsets of the 16 digit pairs in xxxxxxxx-xxxx-xxxx-xxxx-xxxxxxxxxxxx. *)
Definition dashed_offsets : list nat :=
  [0; 2; 4; 6; 9; 11; 14; 16; 19; 21; 24; 26; 28; 30; 32; 34]%nat.

(** The offsets [i*2] of the 32-digit form. *)
Definition plain_offsets : list nat := map (fun i => 2 * i)%nat (seq 0 16).

Definition errInvalidUUIDFormat : string := "invalid UUID format".

(** Lower case of an ASCII letter. *)
Definition ascii_lower (c : ascii) : ascii :=
  let n := nat_of_ascii c in
  if Nat.leb 65 n && Nat.leb n 90 then ascii_of_nat (n + 32) else c.

(** [strings.EqualFold] against the ASCII text [t]. *)
Definition equal_fold (s t : list ascii) : bool :=
  String.eqb (string_of_list_ascii (map ascii_lower s))
             (string_of_list_ascii (map ascii_lower t)).

(** [%q] of one byte: [strconv.Quote] on ASCII (backslash escapes for the
    quote, the backslash and control characters, [\xhh] for the others
    without a short escape); a byte outside ASCII is written [\xhh], as Go
    writes a byte that is not valid UTF-8. *)
Definition quote_byte (c : ascii) : list ascii :=
  let n := nat_of_ascii c in
  let bs := ascii_of_nat 92 in
  if Nat.eqb n 34 || Nat.eqb n 92 then [bs; c]
  else if Nat.leb 32 n && Nat.leb n 126 then [c]
  else if Nat.eqb n 7 then [bs; "a"%char]
  else if Nat.eqb n 8 then [bs; "b"%char]
  else if Nat.eqb n 12 then [bs; "f"%char]
  else if Nat.eqb n 10 then [bs; "n"%char]
  else if Nat.eqb n 13 then [bs; "r"%char]
  else if Nat.eqb n 9 then [bs; "t"%char]
  else if Nat.eqb n 11 then [bs; "v"%char]
  else [bs; "x"%char; hex_digit (n / 16); hex_digit (n mod 16)].

Definition go_quote (s : list ascii) : string :=
  string_of_list_ascii (ascii_of_nat 34 :: flat_map quote_byte s ++ [ascii_of_nat 34]).

(** The 36-character form, checked after the length switch. *)
Definition parse_dashed (s : list ascii) : string + list Byte.byte :=
  if forallb (fun i => match nth_error s i with
                       | Some c => Ascii.eqb c "-"
                       | None => false
                       end) [8; 13; 18; 23]%nat
  then match xtob_at s dashed_offsets with
       | Some u => inr u
       | None => inl errInvalidUUIDFormat
       end
  else inl errInvalidUUIDFormat.

(** [uuid.Parse(s)]: the 16 bytes, or the text of the error. It accepts
    xxxxxxxx-xxxx-xxxx-xxxx-xxxxxxxxxxxx, the same behind [urn:uuid:] (any
    case) or between any two characters (meant as braces), and 32 digits
    with no dashes; digits of either case. *)
Definition uuid_Parse (s : string) : string + list Byte.byte :=
  let cs := list_ascii_of_string s in
  let len := length cs in
  if Nat.eqb len 36 then parse_dashed cs
  else if Nat.eqb len 45 then
    if equal_fold (firstn 9 cs) (list_ascii_of_string "urn:uuid:")
    then parse_dashed (skipn 9 cs)
    else inl ("invalid urn prefix: " ++ go_quote (firstn 9 cs))%string
  else if Nat.eqb len 38 then parse_dashed (skipn 1 cs)
  else if Nat.eqb len 32 then
    match xtob_at cs plain_offsets with
    | Some u => inr u
    | None => inl errInvalidUUIDFormat
    end
  else inl ("invalid UUID length: " ++ NilZero.string_of_uint (Nat.to_uint len))%string.

(* ------------------------------------------------------------------ *)
(** ** [processJob] *)

(** Outcomes of the collaborators [processJob] calls: [os.MkdirTemp],
    [store.Download], the error of [GetRenditionsByJobID], the FFmpeg
    [transcoder.Transcode] (by resolution) and [store.Upload] (by key).
    [None] is a nil error. *)
Record Env := mkEnv {
  mkdir_err : option string;
  download_err : string -> option string;
  list_renditions_err : option string;
  transcode_err : string -> option string;
  upload_err : string -> option string
}.

(** Text of [pgx.ErrNoRows]. *)
Definition errNoRows : string := "no rows in result set".

(** [markJobFailed]: [UpdateJobStatus(failed, &errMsg)], its error only
    logged; returns [jobErr]. *)
Definition markJobFailed (db : DB) (id : string) (jobErr : string)
  : DB * option string :=
  (snd (UpdateJobStatus db id Failed (Some jobErr)), Some jobErr).

(** The [for _, r := range renditions] loop: a failed transcode or upload
    [continue]s; the error of [UpdateRenditionOutputKey] is only logged. *)
Fixpoint process_renditions (env : Env) (jobIDStr inputName : string)
  (rs : list Rendition) (db : DB) : DB :=
  match rs with
  | [] => db
  | r :: rs' =>
      let outputKey := output_key_for jobIDStr inputName (resolution r) in
      match transcode_err env (resolution r) with
      | Some _ => process_renditions env jobIDStr inputName rs' db
      | None =>
          match upload_err env outputKey with
          | Some _ => process_renditions env jobIDStr inputName rs' db
          | None =>
              process_renditions env jobIDStr inputName rs'
                (snd (UpdateRenditionOutputKey db (rend_id r) outputKey))
          end
      end
  end.

(** [processJob] once the token is parsed: the queries take the parsed id
    [pgUUID], given here as the text the rows carry for it, while the temp
    dir and the output keys use [jobIDStr] as it was dequeued. The result
    is the new database and the returned error ([None] for nil). *)
Definition processJob_with_id (env : Env) (now : Z) (workerID jobIDStr pgUUID : string)
  (db : DB) : DB * option string :=
  match StartJobProcessing db now pgUUID workerID with
  | (None, db1) =>
      (db1, Some ("failed to claim job for processing: " ++ errNoRows)%string)
  | (Some job, db1) =>
      match mkdir_err env with
      | Some e => markJobFailed db1 pgUUID ("failed to create temp dir: " ++ e)
      | None =>
          match download_err env (input_key job) with
          | Some e => markJobFailed db1 pgUUID ("failed to download input: " ++ e)
          | None =>
              match list_renditions_err env with
              | Some e => markJobFailed db1 pgUUID ("failed to get renditions: " ++ e)
              | None =>
                  let renditions := GetRenditionsByJobID db1 pgUUID in
                  let db2 := process_renditions env jobIDStr
                               (input_name (input_key job)) renditions db1 in
                  match UpdateJobStatus db2 pgUUID Completed None with
                  | (None, db3) =>
                      (db3, Some ("failed to mark job as completed: " ++ errNoRows)%string)
                  | (Some _, db3) => (db3, None)
                  end
              end
          end
      end
  end.

(** [processJob(ctx, queries, store, workerID, jobIDStr)]: [uuid.Parse]
    first ("invalid job ID: ..." on error, nothing written), then the
    queries on [pgtype.UUID{Bytes: jobUUID, Valid: true}], whose text is
    [uuidToString] of it. *)
Definition processJob (env : Env) (now : Z) (workerID jobIDStr : string)
  (db : DB) : DB * option string :=
  match uuid_Parse jobIDStr with
  | inl e => (db, Some ("invalid job ID: " ++ e)%string)
  | inr jobUUID =>
      processJob_with_id env now workerID jobIDStr
        (uuidToString (mkPgUUID jobUUID true)) db
  end.

(* ------------------------------------------------------------------ *)
(** ** Redis state and the worker loop *)

Record World := mkWorld {
  db : DB;
  pending : list string;              (** [jobs:pending] *)
  dead : list string;                 (** [jobs:dead] *)
  scheduled : list (Z * string);      (** retry goroutines: (wake time, id) *)
  locks : list (string * string)      (** [job:lock:{id}] -> worker id *)
}.

Definition set_db (w : World) (d : DB) : World :=
  mkWorld d (pending w) (dead w) (scheduled w) (locks w).

(** [retryDelays] in seconds. *)
Definition retryDelays : list Z := [10; 30; 60].

(** [delayIndex := int(job.RetryCount)], clamped to [len(retryDelays) - 1];
    [retryDelays[delayIndex]] panics on a negative index ([None]). *)
Definition retry_delay (rc : Z) : option Z :=
  let len := Z.of_nat (length retryDelays) in
  let delayIndex := if len <=? rc then len - 1 else rc in
  if delayIndex <? 0 then None else nth_error retryDelays (Z.to_nat delayIndex).

(** [consumer.PushDeadLetter]: [LPUSH jobs:dead id]. *)
Definition PushDeadLetter (w : World) (id : string) : World :=
  mkWorld (db w) (pending w) (id :: dead w) (scheduled w) (locks w).

(** [handleJobFailure(ctx, queries, consumer, jobIDStr, jobErr)]: a missing
    row or a failed increment returns; the deferred [consumer.Push] is a
    goroutine, recorded in [scheduled] with its wake time. *)
Definition handleJobFailure (now : Z) (jobIDStr jobErr : string) (w : World)
  : World :=
  match GetJob (db w) jobIDStr with
  | None => w
  | Some job =>
      if max_retries job <=? retry_count job then
        let w1 := PushDeadLetter w jobIDStr in
        let errMsg := ("exceeded max retries: " ++ jobErr)%string in
        set_db w1 (snd (UpdateJobStatus (db w1) jobIDStr Failed (Some errMsg)))
      else
        match IncrementRetryCount (db w) jobIDStr with
        | (None, _) => w
        | (Some _, db') =>
            match retry_delay (retry_count job) with
            | Some delay =>
                mkWorld db' (pending w) (dead w)
                  ((now + delay, jobIDStr) :: scheduled w) (locks w)
            | None => set_db w db'
            end
        end
  end.

(** [consumer.Lock]: [SET job:lock:{id} workerID NX]. *)
Definition Lock (w : World) (id wid : string) : bool * World :=
  if existsb (fun l => String.eqb (fst l) id) (locks w) then (false, w)
  else (true, mkWorld (db w) (pending w) (dead w) (scheduled w) ((id, wid) :: locks w)).

(** [consumer.Unlock]: the compare-and-delete script. *)
Definition Unlock (w : World) (id wid : string) : World :=
  mkWorld (db w) (pending w) (dead w) (scheduled w)
    (filter (fun l => negb (String.eqb (fst l) id && String.eqb (snd l) wid)) (locks w)).

(** One iteration of the main loop once [consumer.Pop] returned [jobID]:
    lock, [processJobWithLock] (the renewal goroutine does not touch the
    state modelled here), [handleJobFailure] on error, then [Unlock]. *)
Definition worker_iteration (env : Env) (now : Z) (wid jobID : string)
  (w : World) : World :=
  let (locked, w1) := Lock w jobID wid in
  if negb locked then w1
  else
    let (db2, r) := processJob env now wid jobID (db w1) in
    let w2 := set_db w1 db2 in
    let w3 := match r with
              | Some e => handleJobFailure now jobID e w2
              | None => w2
              end in
    Unlock w3 jobID wid.

(** [BRPOP jobs:pending]: the rightmost (oldest) element. *)
Definition pop_right (l : list string) : option (string * list string) :=
  match rev l with
  | [] => None
  | x :: r => Some (x, rev r)
  end.

(** The main loop step: pop a token (or time out) and run an iteration. *)
Definition worker_step (env : Env) (now : Z) (wid : string) (w : World) : World :=
  match pop_right (pending w) with
  | None => w
  | Some (jobID, rest) =>
      worker_iteration env now wid jobID
        (mkWorld (db w) rest (dead w) (scheduled w) (locks w))
  end.

(* ------------------------------------------------------------------ *)
(** ** The REST handler [CreateJob] ([apps/api/internal/handler/jobs.go]) *)

Record CreateJobRequest := mkCreateJobRequest {
  req_input_key : string;
  req_resolutions : list string
}.

(** What the backend answers to the statements of one request, which the
    program does not decide: an error of the job INSERT (connection lost,
    timeout, ...), an error of the [i]-th rendition INSERT (counted from 0)
    other than the UNIQUE constraint, and an error of the Redis [LPUSH]. *)
Record ApiOutcomes := mkApiOutcomes {
  create_job_err : option string;
  rendition_err : nat -> option string;
  push_err : option string
}.

(** Every backend call succeeds. *)
Definition api_ok : ApiOutcomes := mkApiOutcomes None (fun _ => None) None.

(** [-- name: CreateJob :one  INSERT INTO jobs (input_key, status)
     VALUES ($1, 'queued') RETURNING *]; the id is the fresh
    [gen_random_uuid()] [new_id]; an existing id violates the primary key;
    [err] is a backend error, which writes nothing.
    Column defaults: [retry_count 0], [max_retries 3], the rest NULL. *)
Definition CreateJob_query (err : option string) (db : DB) (new_id input_key : string)
  : option Job * DB :=
  match err with
  | Some _ => (None, db)
  | None =>
      match GetJob db new_id with
      | Some _ => (None, db)
      | None =>
          let j := mkJob new_id input_key Queued None 0 3 None None in
          (Some j, mkDB (jobs db ++ [j]) (renditions db) (next_rend_id db))
      end
  end.

(** [-- name: CreateRendition :one  INSERT INTO renditions (job_id,
     resolution) VALUES ($1, $2) RETURNING *]; [UNIQUE(job_id, resolution)]
    rejects a second row for the same pair; [err] is a backend error, which
    writes nothing. *)
Definition CreateRendition (err : option string) (db : DB) (jid res : string)
  : option Rendition * DB :=
  match err with
  | Some _ => (None, db)
  | None =>
      if existsb (fun r => String.eqb (rend_job_id r) jid && String.eqb (resolution r) res)
                 (renditions db)
      then (None, db)
      else
        let r := mkRendition (next_rend_id db) jid res None in
        (Some r, mkDB (jobs db) (renditions db ++ [r]) (S (next_rend_id db)))
  end.

Definition default_resolutions : list string := ["480p"; "720p"; "1080p"]%string.

(** The loop [for _, res := range resolutions { ... CreateRendition ... }]:
    the [i]-th call meets the backend answer [errs i]; an error is logged and
    the loop goes on ("Continue anyway - job is created"). *)
Fixpoint create_renditions (errs : nat -> option string) (i : nat) (jid : string)
  (rs : list string) (d : DB) : DB :=
  match rs with
  | [] => d
  | res :: rs' =>
      create_renditions errs (S i) jid rs' (snd (CreateRendition (errs i) d jid res))
  end.

(** [func (h *JobHandler) CreateJob]: the HTTP status and the new state.
    Each statement runs on its own (no transaction); a failed job INSERT
    answers 500; a failed [CreateRendition] is logged and skipped; a failed
    [Push] is logged and the answer is still 201. *)
Definition CreateJob_handler (out : ApiOutcomes) (new_id : string)
  (req : CreateJobRequest) (w : World) : nat * World :=
  if String.eqb (req_input_key req) "" then (400%nat, w)
  else
    match CreateJob_query (create_job_err out) (db w) new_id (req_input_key req) with
    | (None, _) => (500%nat, w)
    | (Some job, db1) =>
        let resolutions := match req_resolutions req with
                           | [] => default_resolutions
                           | rs => rs
                           end in
        let db2 := create_renditions (rendition_err out) 0 (job_id job) resolutions db1 in
        let pending2 := match push_err out with
                        | None => job_id job :: pending w
                        | Some _ => pending w
                        end in
        (201%nat, mkWorld db2 pending2 (dead w) (scheduled w) (locks w))
    end.

(* ------------------------------------------------------------------ *)
(** ** The whole system: submissions, worker iterations, retry goroutines
    waking up and lock keys expiring, in any interleaving. *)

Inductive sys_step : World -> World -> Prop :=
| step_submit : forall out new_id req w,
    sys_step w (snd (CreateJob_handler out new_id req w))
| step_worker : forall env now wid w,
    sys_step w (worker_step env now wid w)
| step_retry_push : forall l1 l2 t id w,
    scheduled w = l1 ++ (t, id) :: l2 ->
    sys_step w (mkWorld (db w) (id :: pending w) (dead w) (l1 ++ l2) (locks w))
| step_lock_expire : forall l1 l2 lk w,
    locks w = l1 ++ lk :: l2 ->
    sys_step w (mkWorld (db w) (pending w) (dead w) (scheduled w) (l1 ++ l2)).

Definition empty_world : World := mkWorld (mkDB [] [] 0) [] [] [] [].

Inductive reachable : World -> Prop :=
| reach_init : reachable empty_world
| reach_step : forall w w', reachable w -> sys_step w w' -> reachable w'.

(* ------------------------------------------------------------------ *)
(** ** The FFmpeg transcoder ([apps/worker/internal/transcoder]) *)

Record Profile := mkProfile {
  prof_name : string;
  prof_scale : string;
  prof_video_codec : string;
  prof_audio_codec : string;
  prof_preset : string
}.

(** [DefaultProfiles], a Go map keyed by the resolution name. *)
Definition DefaultProfiles : list (string * Profile) :=
  [("480p", mkProfile "480p" "-2:480" "libx264" "aac" "fast");
   ("720p", mkProfile "720p" "-2:720" "libx264" "aac" "fast");
   ("1080p", mkProfile "1080p" "-2:1080" "libx264" "aac" "fast")]%string.

(** Lookup in a string-keyed map held as an association list. *)
Fixpoint assoc_lookup {A} (k : string) (l : list (string * A)) : option A :=
  match l with
  | [] => None
  | (k', v) :: l' => if String.eqb k' k then Some v else assoc_lookup k l'
  end.

(** [GetProfile]: the profile, or the error text. *)
Definition GetProfile (resolution : string) : Profile + string :=
  match assoc_lookup resolution DefaultProfiles with
  | Some p => inl p
  | None => inr ("unknown resolution profile: " ++ resolution)%string
  end.

(** The argument list [TranscodeWithProfile] passes to [ffmpeg]. *)
Definition ffmpeg_args (inputPath outputPath : string) (p : Profile) : list string :=
  ["-i"; inputPath; "-vf"; "scale=" ++ prof_scale p; "-c:v"; prof_video_codec p;
   "-preset"; prof_preset p; "-c:a"; prof_audio_codec p; "-y"; outputPath]%string.

(** [TranscodeWithProfile]: [run] is the outcome of running [ffmpeg] with
    the given arguments ([None] on success, else the error and the
    captured stderr). *)
Definition TranscodeWithProfile (run : list string -> option (string * string))
  (inputPath outputPath : string) (p : Profile) : option string :=
  match run (ffmpeg_args inputPath outputPath p) with
  | None => None
  | Some (e, stderr) =>
      Some ("ffmpeg failed: " ++ e ++ String "010"%char ("Output: " ++ stderr))%string
  end.

(** [Transcode]: the returned error, [None] for nil. *)
Definition Transcode (run : list string -> option (string * string))
  (inputPath outputPath resolution : string) : option string :=
  match GetProfile resolution with
  | inr e => Some e
  | inl p => TranscodeWithProfile run inputPath outputPath p
  end.

(* ------------------------------------------------------------------ *)
(** ** The storage handlers [GetUploadURL] and [GetDownloadURL]
    ([apps/api/internal/handler/jobs.go]) *)

(** An HTTP reply: an error status with its message, or a success body. *)
Inductive Reply (A : Type) :=
| ReplyError (code : nat) (msg : string)
| ReplyOK (body : A).
Arguments ReplyError {A} code msg.
Arguments ReplyOK {A} body.

Definition maxFilenameLength : nat := 255.

Definition allowedExtensions : list string :=
  [".mp4"; ".mov"; ".avi"; ".mkv"; ".webm"; ".m4v"; ".wmv"; ".flv"]%string.

(** A character of the class [[a-zA-Z0-9._-]]. *)
Definition is_safe_char (c : ascii) : bool :=
  let n := nat_of_ascii c in
  (Nat.leb 97 n && Nat.leb n 122) || (Nat.leb 65 n && Nat.leb n 90) ||
  (Nat.leb 48 n && Nat.leb n 57) ||
  Ascii.eqb c "."%char || Ascii.eqb c "_"%char || Ascii.eqb c "-"%char.

(** [safeFilenameRegex.MatchString]: [^[a-zA-Z0-9._-]+$]. A byte of a
    multi-byte UTF-8 rune is never in the class, so the match can be
    decided byte by byte. *)
Definition safe_filename (s : string) : bool :=
  negb (String.eqb s "") && forallb is_safe_char (list_ascii_of_string s).

(** [strings.ToLower] on ASCII text (it is only applied to a name that
    passed [safeFilenameRegex]). *)
Definition to_lower (s : string) : string :=
  string_of_list_ascii (map ascii_lower (list_ascii_of_string s)).

(** [func (h *StorageHandler) GetUploadURL]: [uploadID] is the fresh
    [uuid.New().String()], [presign] the outcome of
    [GenerateUploadURL] on the key; the reply body is (url, key). *)
Definition GetUploadURL (filename uploadID : string) (presign : string -> option string)
  : Reply (string * string) :=
  if String.eqb filename "" then ReplyError 400 "filename query parameter is required"
  else if Nat.ltb maxFilenameLength (String.length filename)
  then ReplyError 400 "filename too long"
  else if negb (safe_filename filename)
  then ReplyError 400 "filename contains invalid characters"
  else
    let ext := to_lower (go_ext filename) in
    if String.eqb ext "" then ReplyError 400 "filename must have an extension"
    else if negb (existsb (String.eqb ext) allowedExtensions)
    then ReplyError 400 "file type not allowed"
    else
      let key := ("uploads/" ++ uploadID ++ "/input" ++ ext)%string in
      match presign key with
      | None => ReplyError 500 "Failed to generate upload URL"
      | Some url => ReplyOK (url, key)
      end.

(** [strings.Contains(key, "..")] *)
Fixpoint contains_dotdot (s : string) : bool :=
  match s with
  | String a ((String b _) as t) => (Ascii.eqb a "."%char && Ascii.eqb b "."%char) || contains_dotdot t
  | _ => false
  end.

(** [func (h *StorageHandler) GetDownloadURL]: [presign] is the outcome
    of [GenerateDownloadURL]; the reply body is the url. *)
Definition GetDownloadURL (key : string) (presign : string -> option string)
  : Reply string :=
  if String.eqb key "" then ReplyError 400 "key path parameter is required"
  else if contains_dotdot key then ReplyError 400 "invalid key"
  else if negb (String.prefix "outputs/" key) then ReplyError 403 "access denied"
  else if Nat.ltb 500 (String.length key) then ReplyError 400 "key too long"
  else
    match presign key with
    | None => ReplyError 500 "Failed to generate download URL"
    | Some url => ReplyOK url
    end.

(* ------------------------------------------------------------------ *)
(** ** Worker configuration ([apps/worker/internal/config]) *)

Record Config := mkConfig {
  DatabaseURL : string;
  RedisAddr : string;
  S3Endpoint : string;
  S3AccessKey : string;
  S3SecretKey : string;
  S3Bucket : string;
  S3Region : string;
  S3UsePathStyle : bool
}.

(** [getEnv]: [os.LookupEnv] on the process environment, a set variable
    (even empty) wins over the fallback. *)
Definition getEnv (env : list (string * string)) (key fallback : string) : string :=
  match assoc_lookup key env with
  | Some value => value
  | None => fallback
  end.

(** [config.Load]: the configuration or the error text. *)
Definition Load (env : list (string * string)) : Config + string :=
  let cfg := mkConfig
    (getEnv env "DATABASE_URL" "")
    (getEnv env "REDIS_ADDR" "localhost:6379")
    (getEnv env "S3_ENDPOINT" "http://localhost:9000")
    (getEnv env "S3_ACCESS_KEY" "minioadmin")
    (getEnv env "S3_SECRET_KEY" "minioadmin")
    (getEnv env "S3_BUCKET" "transcode")
    (getEnv env "S3_REGION" "us-east-1")
    (String.eqb (getEnv env "S3_USE_PATH_STYLE" "true") "true") in
  if String.eqb (DatabaseURL cfg) "" then inr "DATABASE_URL environment variable is required"%string
  else inl cfg.

(* ------------------------------------------------------------------ *)
(** ** Redis job locks with their time to live ([queue.Consumer]) *)

Module RedisLock.

(** Redis string keys with an expiry time (seconds): (key, (value, expires_at)). *)
Definition store := list (string * (string * Z)).

Definition LockKeyPrefix : string := "job:lock:".
(** [DefaultLockTTL] (5 minutes). *)
Definition DefaultLockTTL : Z := 300.

(** [GET]: a key whose expiry time has passed no longer exists. *)
Definition get (now : Z) (k : string) (s : store) : option string :=
  match assoc_lookup k s with
  | Some (v, exp) => if now <? exp then Some v else None
  | None => None
  end.

Definition del (k : string) (s : store) : store :=
  filter (fun e => negb (String.eqb (fst e) k)) s.

Definition set (k v : string) (exp : Z) (s : store) : store := (k, (v, exp)) :: del k s.

(** [Lock]: [SET job:lock:{id} workerID NX EX 300]. *)
Definition Lock (workerID : string) (now : Z) (jobID : string) (s : store) : bool * store :=
  let lockKey := (LockKeyPrefix ++ jobID)%string in
  match get now lockKey s with
  | Some _ => (false, s)
  | None => (true, set lockKey workerID (now + DefaultLockTTL) s)
  end.

(** [Unlock]: the script deleting the key only when it holds [workerID];
    the returned error is nil in both cases. *)
Definition Unlock (workerID : string) (now : Z) (jobID : string) (s : store) : store :=
  let lockKey := (LockKeyPrefix ++ jobID)%string in
  match get now lockKey s with
  | Some v => if String.eqb v workerID then del lockKey s else s
  | None => s
  end.

(** [ExtendLock]: the script running [PEXPIRE] only when the key holds
    [workerID]; a result of 0 is the error "lock not owned by this worker". *)
Definition ExtendLock (workerID : string) (now : Z) (jobID : string) (ttl : Z) (s : store)
  : option string * store :=
  let lockKey := (LockKeyPrefix ++ jobID)%string in
  match get now lockKey s with
  | Some v =>
      if String.eqb v workerID then (None, set lockKey v (now + ttl) s)
      else (Some "lock not owned by this worker"%string, s)
  | None => (Some "lock not owned by this worker"%string, s)
  end.

(** The renewal goroutine of [processJobWithLock]: [ExtendLock] with
    [DefaultLockTTL] at each tick time; errors are only logged. *)
Fixpoint extend_at (workerID jobID : string) (ticks : list Z) (s : store) : store :=
  match ticks with
  | [] => s
  | t :: ts => extend_at workerID jobID ts (snd (ExtendLock workerID t jobID DefaultLockTTL s))
  end.

(** Tick times that start no earlier than [prev] and leave less than
    [DefaultLockTTL] between consecutive renewals (the 2-minute ticker of
    [processJobWithLock] against the 5-minute lock). *)
Fixpoint ticks_within (prev : Z) (ticks : list Z) : bool :=
  match ticks with
  | [] => true
  | t :: ts => (prev <=? t) && (t <? prev + DefaultLockTTL) && ticks_within t ts
  end.

Fixpoint last_tick (prev : Z) (ticks : list Z) : Z :=
  match ticks with
  | [] => prev
  | t :: ts => last_tick t ts
  end.

End RedisLock.

(* ------------------------------------------------------------------ *)
(** ** Stale-job queries ([queries.sql]) *)

(** The row predicate of [GetStaleJobs]. *)
Definition stale (now : Z) (j : Job) : bool :=
  job_status_eqb (status j) Processing &&
  match started_at j with
  | Some t => t <? now - stall_horizon
  | None => false
  end.

(** [-- name: GetStaleJobs :many  SELECT * FROM jobs WHERE status =
     'processing' AND started_at < NOW() - INTERVAL '10 minutes' LIMIT 100];
    without ORDER BY, the rows are taken here in table order. *)
Definition GetStaleJobs (db : DB) (now : Z) : list Job :=
  firstn 100 (filter (stale now) (jobs db)).

(** [-- name: ResetStalledJob :one  UPDATE jobs SET status = 'queued',
     worker_id = NULL, started_at = NULL WHERE id = $1 AND status =
     'processing' RETURNING *] *)
Definition ResetStalledJob (db : DB) (id : string) : option Job * DB :=
  update_jobs (fun j => String.eqb (job_id j) id && job_status_eqb (status j) Processing)
    (fun j => mkJob (job_id j) (input_key j) Queued (error_message j)
                    (retry_count j) (max_retries j) None None)
    db.

(* ------------------------------------------------------------------ *)
(** ** Auxiliary definitions: invariants, observations and concrete
    inputs used by the properties below. *)

Definition retry_bounds (j : Job) : Prop := 0 <= retry_count j <= max_retries j.

Definition jobs_ok (d : DB) : Prop :=
  NoDup (map job_id (jobs d)) /\ Forall retry_bounds (jobs d).

(** The rendition columns no statement of the worker rewrites: id, job id
    and resolution. *)
Definition rend_key (r : Rendition) : nat * string * string :=
  (rend_id r, rend_job_id r, resolution r).

(** Rendition rows: ids below the id sequence, distinct ids, and distinct
    (job id, resolution) pairs. *)
Definition rend_inv (d : DB) : Prop :=
  Forall (fun r => (rend_id r < next_rend_id d)%nat) (renditions d) /\
  NoDup (map rend_id (renditions d)) /\
  NoDup (map (fun r => (rend_job_id r, resolution r)) (renditions d)).

(** The resolutions of [rs], the first at index [i], whose INSERT meets no
    backend error. *)
Fixpoint inserted_resolutions (errs : nat -> option string) (i : nat)
  (rs : list string) : list string :=
  match rs with
  | [] => []
  | res :: rs' =>
      match errs i with
      | None => res :: inserted_resolutions errs (S i) rs'
      | Some _ => inserted_resolutions errs (S i) rs'
      end
  end.

(** The resolutions of [l] without repetitions, first occurrences kept,
    skipping those already in [seen]. *)
Fixpoint dedup (seen : list string) (l : list string) : list string :=
  match l with
  | [] => []
  | x :: l' =>
      if existsb (String.eqb x) seen then dedup seen l'
      else x :: dedup (seen ++ [x]) l'
  end.

Definition resolutions_of (d : DB) (jid : string) : list string :=
  map resolution (filter (fun r => String.eqb (rend_job_id r) jid) (renditions d)).

(** The error [processJob] returns when a step between the claim and the
    rendition loop fails: creating the temp dir, downloading the input, or
    listing the renditions, checked in this order. *)
Definition setup_error (env : Env) (input : string) : option string :=
  match mkdir_err env with
  | Some e => Some ("failed to create temp dir: " ++ e)%string
  | None =>
      match download_err env input with
      | Some e => Some ("failed to download input: " ++ e)%string
      | None =>
          match list_renditions_err env with
          | Some e => Some ("failed to get renditions: " ++ e)%string
          | None => None
          end
      end
  end.

(** A token in the form [uuidToString] writes: [uuid.Parse] accepts it and
    the parsed id prints back to it, so the worker's queries address the
    row whose id is the token itself. *)
Definition canonical_token (s : string) : bool :=
  match uuid_Parse s with
  | inl _ => false
  | inr u => String.eqb (uuidToString (mkPgUUID u true)) s
  end.

(** A row that is 'failed' with no retries left. *)
Definition exhausted_failed (d : DB) (J : string) : Prop :=
  exists j, GetJob d J = Some j /\ status j = Failed /\
            max_retries j <= retry_count j.

(** A row whose [output_key] the rendition loop of the job [tok] wrote. *)
Definition written_rendition (tok name : string) (r : Rendition) : Rendition :=
  mkRendition (rend_id r) (rend_job_id r) (resolution r)
    (Some (output_key_for tok name (resolution r))).



(* ------------------------------------------------------------------ *)
(** ** Concrete runs *)

Definition demo_job : string := "3f1c2a9e-7b4d-4e21-9c55-0d8e6a1b2c3d".

(** The 16 bytes of [demo_job]'s id, as the [jobs] row holds them. *)
Definition demo_uuid_bytes : list Byte.byte :=
  [Byte.x3f; Byte.x1c; Byte.x2a; Byte.x9e; Byte.x7b; Byte.x4d; Byte.x4e; Byte.x21;
   Byte.x9c; Byte.x55; Byte.x0d; Byte.x8e; Byte.x6a; Byte.x1b; Byte.x2c; Byte.x3d].
Definition worker_a : string := "a0c5e7d2-1111-4aaa-8bbb-000000000001".
Definition worker_b : string := "b0c5e7d2-2222-4aaa-8bbb-000000000002".


(** Scenario S1's submission. *)
Definition demo_submitted : World :=
  snd (CreateJob_handler api_ok demo_job
         (mkCreateJobRequest "uploads/a/v.mp4" ["480p"; "720p"; "1080p"]%string)
         empty_world).

(** The second rendition INSERT (index 1) and the push meet a backend
    error. *)
Definition api_flaky : ApiOutcomes :=
  mkApiOutcomes None
    (fun i => if Nat.eqb i 1 then Some "connection reset by peer"%string else None)
    (Some "dial tcp 127.0.0.1:6379: connect: connection refused"%string).

(** The job row scenario S1's submission inserts. *)
Definition demo_row : Job :=
  mkJob demo_job "uploads/a/v.mp4" Queued None 0 3 None None.

(** Every collaborator succeeds. *)
Definition env_ok : Env :=
  mkEnv None (fun _ => None) None (fun _ => None) (fun _ => None).

(** FFmpeg fails on every resolution. *)
Definition env_transcode_fails : Env :=
  mkEnv None (fun _ => None) None (fun _ => Some "exit status 1"%string) (fun _ => None).

(** The input download fails. *)
Definition env_download_fails : Env :=
  mkEnv None (fun _ => Some "connection reset by peer"%string) None
        (fun _ => None) (fun _ => None).

Definition job_status_of (w : World) (id : string) : option job_status :=
  option_map status (GetJob (db w) id).

Definition output_keys_of (w : World) (id : string) : list (option string) :=
  map output_key (GetRenditionsByJobID (db w) id).


(** Two deliveries of the same token (scenario S5): worker A runs the job to
    completion, then worker B pops the duplicate token. *)
Definition demo_duplicate_token : World :=
  mkWorld (db demo_submitted) [demo_job; demo_job] [] [] [].

(* ================================================================== *)
(** * Properties *)

(** The claim predicate as the specification writes it. *)
Definition claim_predicate (now : Z) (id : string) (j : Job) : Prop :=
  job_id j = id /\
  (status j = Queued \/
   (status j = Processing /\
    exists t, started_at j = Some t /\ t < now - stall_horizon)).

Lemma job_status_eqb_true a b : job_status_eqb a b = true <-> a = b.
Proof. destruct a, b; simpl; split; congruence. Qed.

Lemma claimable_spec now id j :
  claimable now id j = true <-> claim_predicate now id j.
Proof.
  unfold claimable, claim_predicate.
  rewrite andb_true_iff, orb_true_iff, andb_true_iff, String.eqb_eq,
          !job_status_eqb_true.
  destruct (started_at j) as [t|]; split.
  - intros (H1 & [H2 | (H2 & H3)]); split; auto.
    right; split; auto. exists t; split; auto. apply Z.ltb_lt; exact H3.
  - intros (H1 & [H2 | (H2 & t' & Ht & H3)]); split; auto.
    right; split; auto. injection Ht as <-. apply Z.ltb_lt; exact H3.
  - intros (H1 & [H2 | (H2 & H3)]); split; auto. discriminate.
  - intros (H1 & [H2 | (H2 & t' & Ht & H3)]); split; auto. discriminate.
Qed.

Lemma claimable_false now id j :
  claimable now id j = false <-> ~ claim_predicate now id j.
Proof.
  rewrite <- claimable_spec. destruct (claimable now id j); split; congruence.
Qed.

Lemma map_id_when_false {A} (p : A -> bool) (f : A -> A) (l : list A) :
  (forall x, In x l -> p x = false) ->
  map (fun x => if p x then f x else x) l = l.
Proof.
  intros H. induction l as [|x l IH]; simpl; auto.
  rewrite (H x (or_introl eq_refl)), IH; auto.
  intros y Hy; apply H; right; exact Hy.
Qed.

Lemma Forall2_map_if {A} (p : A -> bool) (f : A -> A) (l : list A) :
  Forall2 (fun x y => (p x = true /\ y = f x) \/ (p x = false /\ y = x))
    l (map (fun x => if p x then f x else x) l).
Proof.
  induction l as [|x l IH]; simpl; constructor; auto.
  destruct (p x); auto.
Qed.

(** Claim C1: [StartJobProcessing] is one conditional update. It returns a
    row iff some row satisfies [id = $1 AND (status = 'queued' OR
    (status = 'processing' AND started_at < now - 10 min))]; the returned row
    is such a row with status 'processing', the caller's worker id,
    [started_at = now] and no error message; every row satisfying the
    predicate is rewritten that way and every other row is unchanged, so when
    no row matches nothing changes and no row is returned. *)
Theorem StartJobProcessing_conditional_claim (db : DB) (now : Z) (id wid : string) :
  let (res, db') := StartJobProcessing db now id wid in
  (forall j, res = Some j ->
     exists j0, In j0 (jobs db) /\ claim_predicate now id j0 /\
       j = mkJob (job_id j0) (input_key j0) Processing None
                 (retry_count j0) (max_retries j0) (Some now) (Some wid)) /\
  (res = None <-> forall j0, In j0 (jobs db) -> ~ claim_predicate now id j0) /\
  Forall2 (fun j0 j1 =>
             (claim_predicate now id j0 /\
              j1 = mkJob (job_id j0) (input_key j0) Processing None
                         (retry_count j0) (max_retries j0) (Some now) (Some wid)) \/
             (~ claim_predicate now id j0 /\ j1 = j0))
          (jobs db) (jobs db') /\
  renditions db' = renditions db /\
  (res = None -> db' = db).
Proof.
  unfold StartJobProcessing, update_jobs. simpl.
  split; [|split; [|split; [|split]]].
  - intros j Hj.
    destruct (find (claimable now id) (jobs db)) as [j0|] eqn:Hf; [|discriminate].
    simpl in Hj; injection Hj as <-.
    exists j0. apply find_some in Hf as [Hin Hc].
    split; [exact Hin|]. split; [apply claimable_spec; exact Hc|reflexivity].
  - destruct (find (claimable now id) (jobs db)) as [j0|] eqn:Hf; simpl; split.
    + discriminate.
    + intros H. apply find_some in Hf as [Hin Hc].
      exfalso. apply (H j0 Hin). apply claimable_spec; exact Hc.
    + intros _ j0 Hin. apply claimable_false. apply (find_none _ _ Hf j0 Hin).
    + reflexivity.
  - eapply Forall2_impl; [|apply Forall2_map_if].
    intros x y [[Hp ->] | [Hp ->]].
    + left. split; [apply claimable_spec; exact Hp | reflexivity].
    + right. split; [apply claimable_false; exact Hp | reflexivity].
  - reflexivity.
  - intros Hn.
    destruct (find (claimable now id) (jobs db)) eqn:Hf; [discriminate|].
    rewrite map_id_when_false by (intros; apply (find_none _ _ Hf); auto).
    destruct db; reflexivity.
Qed.

(** Reading a row back after an update by id that keeps the id. *)
Lemma find_map_if {A} (p : A -> bool) (f : A -> A) (l : list A) :
  (forall x, p (f x) = p x) ->
  find p (map (fun x => if p x then f x else x) l) = option_map f (find p l).
Proof.
  intros Hf. induction l as [|x l IH]; simpl; auto.
  destruct (p x) eqn:Hx; simpl.
  - rewrite Hf, Hx; reflexivity.
  - rewrite Hx; exact IH.
Qed.

Lemma GetJob_update_by_id (db : DB) (id : string) (f : Job -> Job) :
  (forall j, job_id (f j) = job_id j) ->
  GetJob (snd (update_jobs (fun j => String.eqb (job_id j) id) f db)) id
  = option_map f (GetJob db id).
Proof.
  intros Hf. unfold GetJob, update_jobs; simpl.
  apply find_map_if. intros x; rewrite Hf; reflexivity.
Qed.

Lemma GetJob_id (db : DB) (id : string) (j : Job) :
  GetJob db id = Some j -> job_id j = id.
Proof.
  unfold GetJob; intros H. apply find_some in H as [_ H].
  apply String.eqb_eq; exact H.
Qed.

Lemma retry_delay_spec (rc : Z) :
  0 <= rc ->
  exists delay, retry_delay rc = Some delay /\
    (rc < 3 -> nth_error retryDelays (Z.to_nat rc) = Some delay) /\
    (3 <= rc -> delay = 60).
Proof.
  intros H. unfold retry_delay; simpl.
  destruct (3 <=? rc) eqn:E.
  - apply Z.leb_le in E. exists 60. simpl. repeat split; intros; lia.
  - apply Z.leb_gt in E.
    assert (Hrc : rc = 0 \/ rc = 1 \/ rc = 2) by lia.
    destruct Hrc as [-> | [-> | ->]]; simpl; eexists; repeat split;
      intros; try lia; reflexivity.
Qed.

(** Claim C4: on a plan failure of a job whose row exists (with a
    non-negative retry count), [handleJobFailure] either (retry_count >=
    max_retries) pushes the id on [jobs:dead] and sets status 'failed' with
    error message "exceeded max retries: " followed by the error, or
    (otherwise) increments retry_count, sets status 'queued', clears
    worker_id and started_at, and schedules a push of the id after the delay
    found at index retry_count (before the increment) of [10s, 30s, 60s], the
    last entry (60s) for every count of 3 or more. *)
Theorem handleJobFailure_retry_policy (now : Z) (id err : string) (w : World)
  (job : Job) (Hget : GetJob (db w) id = Some job)
  (Hnn : 0 <= retry_count job) :
  let w' := handleJobFailure now id err w in
  (max_retries job <= retry_count job ->
     dead w' = id :: dead w /\ pending w' = pending w /\
     scheduled w' = scheduled w /\ locks w' = locks w /\
     GetJob (db w') id =
       Some (mkJob (job_id job) (input_key job) Failed
               (Some ("exceeded max retries: " ++ err)%string)
               (retry_count job) (max_retries job) (started_at job) (worker_id job))) /\
  (retry_count job < max_retries job ->
     dead w' = dead w /\ pending w' = pending w /\ locks w' = locks w /\
     GetJob (db w') id =
       Some (mkJob (job_id job) (input_key job) Queued (error_message job)
               (retry_count job + 1) (max_retries job) None None) /\
     exists delay,
       scheduled w' = (now + delay, id) :: scheduled w /\
       (retry_count job < 3 ->
          nth_error retryDelays (Z.to_nat (retry_count job)) = Some delay) /\
       (3 <= retry_count job -> delay = 60)).
Proof.
  cbv zeta. unfold handleJobFailure. rewrite Hget.
  split; intros Hc.
  - apply Z.leb_le in Hc. rewrite Hc.
    unfold set_db, PushDeadLetter. cbn [db dead pending scheduled locks].
    repeat split; try reflexivity.
    unfold UpdateJobStatus. rewrite GetJob_update_by_id by reflexivity.
    rewrite Hget. reflexivity.
  - assert (Hc' : (max_retries job <=? retry_count job) = false) by (apply Z.leb_gt; exact Hc).
    rewrite Hc'.
    destruct (IncrementRetryCount (db w) id) as [r db'] eqn:Hinc.
    assert (Hdb' : GetJob db' id =
       Some (mkJob (job_id job) (input_key job) Queued (error_message job)
               (retry_count job + 1) (max_retries job) None None)).
    { replace db' with (snd (IncrementRetryCount (db w) id)) by (rewrite Hinc; reflexivity).
      unfold IncrementRetryCount. rewrite GetJob_update_by_id by reflexivity.
      rewrite Hget; reflexivity. }
    assert (Hr : r <> None).
    { unfold IncrementRetryCount, update_jobs in Hinc. injection Hinc as Hr _.
      unfold GetJob in Hget. rewrite Hget in Hr. subst r; discriminate. }
    destruct r as [r|]; [|congruence].
    destruct (retry_delay_spec (retry_count job) Hnn) as (delay & Hd & H1 & H2).
    rewrite Hd. simpl. repeat split; auto.
    exists delay. repeat split; auto.
Qed.

(* ------------------------------------------------------------------ *)
(** ** Retry bound: rows keep [0 <= retry_count <= max_retries] and
    unique ids under every step of the system. *)

Lemma map_job_id_update (p : Job -> bool) (f : Job -> Job) (l : list Job) :
  (forall j, job_id (f j) = job_id j) ->
  map job_id (map (fun j => if p j then f j else j) l) = map job_id l.
Proof.
  intros Hf. induction l as [|x l IH]; simpl; auto.
  rewrite IH. destruct (p x); rewrite ?Hf; reflexivity.
Qed.

Lemma update_jobs_ok (p : Job -> bool) (f : Job -> Job) (d : DB) :
  (forall j, job_id (f j) = job_id j) ->
  (forall j, In j (jobs d) -> p j = true -> retry_bounds j -> retry_bounds (f j)) ->
  jobs_ok d -> jobs_ok (snd (update_jobs p f d)).
Proof.
  intros Hid Hb [Hnd Hf]. unfold update_jobs, jobs_ok; cbn. split.
  - rewrite (map_job_id_update p f _ Hid). exact Hnd.
  - rewrite Forall_forall in *. intros x Hx.
    apply in_map_iff in Hx as (y & <- & Hy).
    destruct (p y) eqn:Hp; auto.
Qed.

Lemma StartJobProcessing_ok d now id wid :
  jobs_ok d -> jobs_ok (snd (StartJobProcessing d now id wid)).
Proof. intros H; apply update_jobs_ok; auto. Qed.

Lemma UpdateJobStatus_ok d id st msg :
  jobs_ok d -> jobs_ok (snd (UpdateJobStatus d id st msg)).
Proof. intros H; apply update_jobs_ok; auto. Qed.

Lemma process_renditions_jobs env jid name rs d :
  jobs (process_renditions env jid name rs d) = jobs d.
Proof.
  revert d. induction rs as [|r rs IH]; intros d; simpl; auto.
  destruct (transcode_err env (resolution r)); auto.
  destruct (upload_err env (output_key_for jid name (resolution r))); auto.
  rewrite IH. reflexivity.
Qed.

Lemma processJob_cases env now wid tok d :
  (exists e, processJob env now wid tok d = (d, Some e)) \/
  (exists K, processJob env now wid tok d = processJob_with_id env now wid tok K d).
Proof.
  unfold processJob. destruct (uuid_Parse tok) as [e|u];
    [left; eexists; reflexivity | right; eexists; reflexivity].
Qed.

Lemma processJob_canonical env now wid tok d :
  canonical_token tok = true ->
  processJob env now wid tok d = processJob_with_id env now wid tok tok d.
Proof.
  unfold canonical_token, processJob. destruct (uuid_Parse tok) as [e|u]; [discriminate|].
  intros H. apply String.eqb_eq in H. rewrite H. reflexivity.
Qed.

Lemma processJob_with_id_ok env now wid tok id d :
  jobs_ok d -> jobs_ok (fst (processJob_with_id env now wid tok id d)).
Proof.
  intros H. unfold processJob_with_id.
  pose proof (StartJobProcessing_ok d now id wid H) as H1.
  destruct (StartJobProcessing d now id wid) as [[job|] d1]; cbn [snd] in H1;
    [|exact H1].
  destruct (mkdir_err env); [exact (UpdateJobStatus_ok _ _ _ _ H1)|].
  destruct (download_err env (input_key job)); [exact (UpdateJobStatus_ok _ _ _ _ H1)|].
  destruct (list_renditions_err env); [exact (UpdateJobStatus_ok _ _ _ _ H1)|].
  cbv zeta.
  set (d2 := process_renditions env tok (input_name (input_key job))
               (GetRenditionsByJobID d1 id) d1).
  assert (H2 : jobs_ok d2).
  { unfold jobs_ok, d2. rewrite process_renditions_jobs. exact H1. }
  pose proof (UpdateJobStatus_ok d2 id Completed None H2) as H3.
  destruct (UpdateJobStatus d2 id Completed None) as [[?|] ?]; exact H3.
Qed.

Lemma processJob_ok env now wid tok d :
  jobs_ok d -> jobs_ok (fst (processJob env now wid tok d)).
Proof.
  intros H. destruct (processJob_cases env now wid tok d) as [[e ->]|[K ->]];
    [exact H | apply processJob_with_id_ok; exact H].
Qed.

(** With unique ids, the row [GetJob] returns is the only row with its id. *)
Lemma GetJob_unique d id j x :
  NoDup (map job_id (jobs d)) -> GetJob d id = Some j ->
  In x (jobs d) -> job_id x = id -> x = j.
Proof.
  unfold GetJob. induction (jobs d) as [|y l IH]; simpl; intros Hnd Hf Hx Hid.
  - destruct Hx.
  - apply NoDup_cons_iff in Hnd as [Hny Hnd'].
    destruct (String.eqb (job_id y) id) eqn:Ey.
    + injection Hf as <-. destruct Hx as [<-|Hx]; auto.
      apply String.eqb_eq in Ey. exfalso; apply Hny.
      rewrite Ey, <- Hid. apply in_map; exact Hx.
    + destruct Hx as [<-|Hx].
      * rewrite Hid, String.eqb_refl in Ey; discriminate.
      * apply IH; auto.
Qed.

(** What [handleJobFailure] does to [jobs:dead] and to the rows: either the
    dead-letter list is untouched and the rows stay well-formed, or the id is
    pushed because its row has [max_retries <= retry_count], and the row
    keeps its counters. *)
Lemma handleJobFailure_cases now id e w :
  jobs_ok (db w) ->
  let w' := handleJobFailure now id e w in
  (dead w' = dead w /\ jobs_ok (db w')) \/
  (exists j, GetJob (db w) id = Some j /\ max_retries j <= retry_count j /\
     dead w' = id :: dead w /\ jobs_ok (db w') /\
     exists j', GetJob (db w') id = Some j' /\
       retry_count j' = retry_count j /\ max_retries j' = max_retries j).
Proof.
  intros Hok. cbv zeta. unfold handleJobFailure.
  destruct (GetJob (db w) id) as [job|] eqn:Hget; [|left; auto].
  destruct (max_retries job <=? retry_count job) eqn:Hc.
  - right. exists job. apply Z.leb_le in Hc.
    unfold set_db, PushDeadLetter. cbn [db dead].
    split; [reflexivity|]. split; [exact Hc|]. split; [reflexivity|].
    split; [apply UpdateJobStatus_ok; exact Hok|].
    unfold UpdateJobStatus. rewrite GetJob_update_by_id by reflexivity.
    rewrite Hget. eexists; split; [reflexivity|]. split; reflexivity.
  - left. apply Z.leb_gt in Hc.
    assert (Hinc : jobs_ok (snd (IncrementRetryCount (db w) id))).
    { apply update_jobs_ok; auto.
      intros x Hx Hp Hb. apply String.eqb_eq in Hp.
      assert (x = job) by (apply (GetJob_unique (db w) id); tauto || (destruct Hok; auto)).
      subst x. unfold retry_bounds in *; simpl. lia. }
    destruct (IncrementRetryCount (db w) id) as [[r|] d'] eqn:Ei; simpl in Hinc.
    + destruct (retry_delay (retry_count job)); simpl; auto.
    + auto.
Qed.

Lemma GetJob_none_notin d id :
  GetJob d id = None -> ~ In id (map job_id (jobs d)).
Proof.
  unfold GetJob. intros Hn Hin. apply in_map_iff in Hin as (x & Hx & Hin).
  pose proof (find_none _ _ Hn x Hin) as E. simpl in E.
  rewrite Hx, String.eqb_refl in E. discriminate.
Qed.

Lemma CreateRendition_jobs err d jid res :
  jobs (snd (CreateRendition err d jid res)) = jobs d.
Proof. unfold CreateRendition. destruct err; [|destruct existsb]; reflexivity. Qed.

Lemma create_renditions_jobs errs i jid rs d :
  jobs (create_renditions errs i jid rs d) = jobs d.
Proof.
  revert i d. induction rs as [|r rs IH]; intros i d; simpl; auto.
  rewrite IH. apply CreateRendition_jobs.
Qed.

(** A submission changes nothing, or inserts the row of a fresh id and its
    renditions and maybe pushes the id. *)
Lemma CreateJob_handler_cases out new_id req w :
  snd (CreateJob_handler out new_id req w) = w \/
  (req_input_key req <> ""%string /\ create_job_err out = None /\
   GetJob (db w) new_id = None /\
   fst (CreateJob_handler out new_id req w) = 201%nat /\
   snd (CreateJob_handler out new_id req w) =
     mkWorld
       (create_renditions (rendition_err out) 0 new_id
          (match req_resolutions req with [] => default_resolutions | rs => rs end)
          (mkDB (jobs (db w) ++ [mkJob new_id (req_input_key req) Queued None 0 3 None None])
                (renditions (db w)) (next_rend_id (db w))))
       (match push_err out with None => new_id :: pending w | Some _ => pending w end)
       (dead w) (scheduled w) (locks w)).
Proof.
  unfold CreateJob_handler.
  destruct (String.eqb_spec (req_input_key req) "") as [_|Hne]; [left; reflexivity|].
  unfold CreateJob_query.
  destruct (create_job_err out) eqn:Ee; [left; reflexivity|].
  destruct (GetJob (db w) new_id) eqn:Hg; [left; reflexivity|].
  right. repeat split; auto.
Qed.

Lemma CreateJob_handler_ok out new_id req w :
  jobs_ok (db w) -> jobs_ok (db (snd (CreateJob_handler out new_id req w))) /\
                   dead (snd (CreateJob_handler out new_id req w)) = dead w.
Proof.
  intros [Hnd Hb].
  destruct (CreateJob_handler_cases out new_id req w) as [->|(_ & _ & Hg & _ & ->)];
    [split; [split|]; auto|].
  cbn [db dead]. split; [|reflexivity].
  unfold jobs_ok. rewrite create_renditions_jobs. cbn [jobs]. split.
  - rewrite map_app. apply NoDup_app; auto.
    + constructor; [intros []|constructor].
    + intros a Ha [Ha'|[]]. simpl in Ha'. subst a.
      apply (GetJob_none_notin _ _ Hg Ha).
  - apply Forall_app; split; auto. constructor; [|constructor].
    unfold retry_bounds; simpl; lia.
Qed.

(** The effect of one worker step on [jobs:dead] and on the rows. *)
Lemma worker_step_cases env now wid w :
  jobs_ok (db w) ->
  let w' := worker_step env now wid w in
  (dead w' = dead w /\ jobs_ok (db w')) \/
  (exists id j, dead w' = id :: dead w /\ jobs_ok (db w') /\
     GetJob (db w') id = Some j /\ max_retries j <= retry_count j).
Proof.
  intros Hok. cbv zeta. unfold worker_step.
  destruct (pop_right (pending w)) as [[jobID rest]|]; [|left; auto].
  unfold worker_iteration, Lock. cbn [db locks].
  destruct (existsb _ _); [left; auto|].
  cbn [negb db pending dead scheduled locks].
  pose proof (processJob_ok env now wid jobID (db w) Hok) as Hp.
  destruct (processJob env now wid jobID (db w)) as [d2 [e|]] eqn:Ep;
    cbn [fst] in Hp.
  - match goal with
    | |- context [handleJobFailure now jobID e ?w2] =>
        destruct (handleJobFailure_cases now jobID e w2 Hp)
          as [[Hd Hk] | (j & Hg & Hc & Hd & Hk & j' & Hg' & Hr & Hm)];
        unfold Unlock; cbn [db dead]; rewrite Hd
    end.
    + left. split; auto.
    + right. exists jobID, j'.
      split; [reflexivity|]. split; [exact Hk|]. split; [exact Hg'|]. lia.
  - left. unfold Unlock, set_db. cbn [db dead]. split; auto.
Qed.

Lemma sys_step_cases w w' :
  jobs_ok (db w) -> sys_step w w' ->
  (dead w' = dead w /\ jobs_ok (db w')) \/
  (exists id j, dead w' = id :: dead w /\ jobs_ok (db w') /\
     GetJob (db w') id = Some j /\ max_retries j <= retry_count j).
Proof.
  intros Hok Hs. destruct Hs as [out new_id req w|env now wid w|l1 l2 t id w Hs|l1 l2 lk w Hs].
  - left. destruct (CreateJob_handler_ok out new_id req w Hok); auto.
  - apply worker_step_cases; exact Hok.
  - left; auto.
  - left; auto.
Qed.

Lemma reachable_jobs_ok w : reachable w -> jobs_ok (db w).
Proof.
  induction 1 as [|w w' Hr IH Hs].
  - split; simpl; constructor.
  - destruct (sys_step_cases w w' IH Hs) as [[_ H] | (id & j & _ & H & _)]; exact H.
Qed.

Lemma cons_neq {A} (x : A) (l : list A) : x :: l <> l.
Proof.
  intros H. apply (f_equal (@length A)) in H. simpl in H. lia.
Qed.

(** Claim C5: in every reachable state every job row has
    [0 <= retry_count <= max_retries]; and whenever a step pushes an id on
    [jobs:dead], the row of that id has [retry_count = max_retries]. *)
Theorem retry_bound_and_dead_letter (w : World) (Hr : reachable w) :
  Forall (fun j => retry_count j <= max_retries j) (jobs (db w)) /\
  (forall w' id, sys_step w w' -> dead w' = id :: dead w ->
     exists j, GetJob (db w') id = Some j /\ retry_count j = max_retries j).
Proof.
  pose proof (reachable_jobs_ok w Hr) as Hok. split.
  - destruct Hok as [_ Hb]. eapply Forall_impl; [|exact Hb].
    intros j [_ H]; exact H.
  - intros w' id Hs Hd.
    assert (Hok' : jobs_ok (db w')) by exact (reachable_jobs_ok w' (reach_step w w' Hr Hs)).
    destruct (sys_step_cases w w' Hok Hs) as [[Hd' _] | (id' & j & Hd' & _ & Hg & Hc)].
    + rewrite Hd in Hd'. exfalso; exact (cons_neq _ _ Hd').
    + rewrite Hd in Hd'. injection Hd' as <-.
      exists j. split; [exact Hg|].
      destruct Hok' as [_ Hb]. rewrite Forall_forall in Hb.
      assert (Hin : In j (jobs (db w'))) by (unfold GetJob in Hg; apply find_some in Hg; tauto).
      specialize (Hb j Hin). unfold retry_bounds in Hb. lia.
Qed.

(** Claim C2: when the transcode fails for every rendition, the worker
    still finalizes the job 'completed' with no rendition output set: no
    error reaches the retry policy and nothing is dead-lettered or
    re-scheduled. *)
Theorem all_renditions_failed_job_completed :
  let w1 := worker_step env_transcode_fails 1000 worker_a demo_submitted in
  job_status_of w1 demo_job = Some Completed /\
  output_keys_of w1 demo_job = [None; None; None] /\
  dead w1 = [] /\ scheduled w1 = [] /\
  snd (processJob env_transcode_fails 1000 worker_a demo_job (db demo_submitted)) = None.
Proof. vm_compute. repeat split; reflexivity. Qed.

(** Claim C6: worker B's [StartJobProcessing] returns no row for the
    completed job, and the worker does not just release its lock: the
    retry policy runs, the completed job goes back to 'queued' with
    retry_count 1 and a push of its id is scheduled 10 s later. *)
Theorem already_claimed_token_runs_retry_policy :
  let wa := worker_step env_ok 1000 worker_a demo_duplicate_token in
  let wb := worker_step env_ok 1100 worker_b wa in
  job_status_of wa demo_job = Some Completed /\
  fst (StartJobProcessing (db wa) 1100 demo_job worker_b) = None /\
  job_status_of wb demo_job = Some Queued /\
  option_map retry_count (GetJob (db wb) demo_job) = Some 1 /\
  scheduled wb = [(1110, demo_job)] /\ locks wb = [].
Proof. vm_compute. repeat split; reflexivity. Qed.

(** Claim C3 does not hold: a download failure makes [markJobFailed] set
    the job 'failed', and the retry handler that follows sets it back to
    'queued'. *)
Lemma failed_status_regresses_to_queued :
  let (d1, r) := processJob env_download_fails 1000 worker_a demo_job (db demo_submitted) in
  option_map status (GetJob d1 demo_job) = Some Failed /\
  r = Some "failed to download input: connection reset by peer"%string /\
  option_map status
    (GetJob (db (handleJobFailure 1000 demo_job
                   "failed to download input: connection reset by peer"
                   (set_db demo_submitted d1))) demo_job) = Some Queued.
Proof. vm_compute. repeat split; reflexivity. Qed.

(** Claim C7 does not hold: a request with a duplicated resolution is
    accepted (HTTP 201), the job row is created and one rendition per
    distinct resolution. *)
Lemma duplicate_resolutions_accepted :
  let (code, w1) := CreateJob_handler api_ok demo_job
        (mkCreateJobRequest "uploads/a/v.mp4" ["480p"; "480p"]%string) empty_world in
  code = 201%nat /\ job_status_of w1 demo_job = Some Queued /\
  map resolution (renditions (db w1)) = ["480p"%string].
Proof. vm_compute. repeat split; reflexivity. Qed.

(** Claim C8 does not hold: after a download failure with retries left, the
    job is 'queued' again and still carries the error message written by
    [markJobFailed]. *)
Lemma error_message_on_requeued_job :
  let w1 := worker_step env_download_fails 1000 worker_a demo_submitted in
  job_status_of w1 demo_job = Some Queued /\
  option_map error_message (GetJob (db w1) demo_job) =
    Some (Some "failed to download input: connection reset by peer"%string).
Proof. vm_compute. repeat split; reflexivity. Qed.


(* ------------------------------------------------------------------ *)
(** ** Row-level facts about updates by id *)

Lemma update_jobs_none (p : Job -> bool) (f : Job -> Job) (d : DB) :
  fst (update_jobs p f d) = None -> snd (update_jobs p f d) = d.
Proof.
  unfold update_jobs; cbn [fst snd]. intros Hn.
  destruct (find p (jobs d)) eqn:Hf; [discriminate|].
  rewrite map_id_when_false by (intros; apply (find_none _ _ Hf); auto).
  destruct d; reflexivity.
Qed.

Lemma find_none_intro {A} (p : A -> bool) (l : list A) :
  (forall x, In x l -> p x = false) -> find p l = None.
Proof.
  induction l as [|x l IH]; simpl; intros H; auto.
  rewrite (H x (or_introl eq_refl)). apply IH. intros y Hy; apply H; right; exact Hy.
Qed.

Lemma find_app_l {A} (p : A -> bool) (l l' : list A) (x : A) :
  find p l = Some x -> find p (l ++ l') = Some x.
Proof.
  induction l as [|y l IH]; simpl; [discriminate|].
  destruct (p y); auto.
Qed.

(** An update whose predicate only selects rows of id [id] leaves the row
    of every other id as it was. *)
Lemma GetJob_update_other (p : Job -> bool) (f : Job -> Job) (d : DB) (id J : string) :
  (forall x, p x = true -> job_id x = id) -> id <> J ->
  (forall x, job_id (f x) = job_id x) ->
  GetJob (snd (update_jobs p f d)) J = GetJob d J.
Proof.
  intros Hp Hne Hf. unfold GetJob, update_jobs; cbn [snd jobs].
  induction (jobs d) as [|x l IH]; simpl; auto.
  destruct (p x) eqn:Ex; simpl.
  - rewrite Hf. rewrite (Hp x Ex).
    destruct (String.eqb_spec id J); [contradiction|]. exact IH.
  - destruct (String.eqb (job_id x) J); auto.
Qed.

(** An update selecting rows of id [J] that selects the row [GetJob]
    returns: the first selected row is that row, and reading back gives its
    rewritten version. *)
Lemma find_first_selected (p : Job -> bool) (d : DB) (J : string) (j : Job) :
  (forall x, p x = true -> job_id x = J) ->
  GetJob d J = Some j -> p j = true -> find p (jobs d) = Some j.
Proof.
  intros Hp. unfold GetJob. induction (jobs d) as [|x l IH]; simpl; [discriminate|].
  destruct (String.eqb (job_id x) J) eqn:Ex.
  - intros Hs Hpj. injection Hs as <-. rewrite Hpj. reflexivity.
  - intros Hs Hpj. destruct (p x) eqn:Epx; auto.
    apply Hp in Epx. rewrite Epx, String.eqb_refl in Ex. discriminate.
Qed.

Lemma GetJob_update_first (p : Job -> bool) (f : Job -> Job) (d : DB) (J : string) (j : Job) :
  (forall x, p x = true -> job_id x = J) ->
  (forall x, job_id (f x) = job_id x) ->
  GetJob d J = Some j -> p j = true ->
  GetJob (snd (update_jobs p f d)) J = Some (f j).
Proof.
  intros Hp Hf. unfold GetJob, update_jobs; cbn [snd jobs].
  induction (jobs d) as [|x l IH]; simpl; [discriminate|].
  destruct (String.eqb (job_id x) J) eqn:Ex.
  - intros Hs Hpj. injection Hs as <-. rewrite Hpj; simpl. rewrite Hf, Ex. reflexivity.
  - intros Hs Hpj. destruct (p x) eqn:Epx.
    + apply Hp in Epx. rewrite Epx, String.eqb_refl in Ex. discriminate.
    + simpl. rewrite Ex. auto.
Qed.

Lemma GetJob_jobs_eq (d d' : DB) (J : string) :
  jobs d' = jobs d -> GetJob d' J = GetJob d J.
Proof. unfold GetJob; intros ->; reflexivity. Qed.

Lemma claimable_id now id x : claimable now id x = true -> job_id x = id.
Proof.
  unfold claimable; intros H. apply andb_true_iff in H as [H _].
  apply String.eqb_eq; exact H.
Qed.

Lemma eqb_id id x : String.eqb (job_id x) id = true -> job_id x = id.
Proof. apply String.eqb_eq. Qed.

(** [processJob] on the id [id] leaves the row of every other id alone. *)
Lemma processJob_with_id_other env now wid tok id d J :
  id <> J -> GetJob (fst (processJob_with_id env now wid tok id d)) J = GetJob d J.
Proof.
  intros Hne. unfold processJob_with_id.
  assert (Hc : GetJob (snd (StartJobProcessing d now id wid)) J = GetJob d J)
    by (apply GetJob_update_other with (id := id);
        [intros x; apply claimable_id | exact Hne | reflexivity]).
  destruct (StartJobProcessing d now id wid) as [[job|] d1]; cbn [snd] in Hc;
    [|exact Hc].
  assert (Hu : forall d0 st m, GetJob (snd (UpdateJobStatus d0 id st m)) J = GetJob d0 J)
    by (intros; apply GetJob_update_other with (id := id);
        [intros x; apply eqb_id | exact Hne | reflexivity]).
  destruct (mkdir_err env); [cbn [fst markJobFailed]; rewrite Hu; exact Hc|].
  destruct (download_err env (input_key job)); [cbn [fst markJobFailed]; rewrite Hu; exact Hc|].
  destruct (list_renditions_err env); [cbn [fst markJobFailed]; rewrite Hu; exact Hc|].
  cbv zeta.
  set (d2 := process_renditions env tok (input_name (input_key job))
               (GetRenditionsByJobID d1 id) d1).
  assert (H2 : GetJob d2 J = GetJob d1 J)
    by (apply GetJob_jobs_eq; apply process_renditions_jobs).
  specialize (Hu d2 Completed None).
  destruct (UpdateJobStatus d2 id Completed None) as [[?|] d3]; cbn [fst snd] in *;
    congruence.
Qed.

(** [handleJobFailure] on token [id] leaves the row of every other id
    alone. *)
Lemma handleJobFailure_other now id e w J :
  id <> J -> GetJob (db (handleJobFailure now id e w)) J = GetJob (db w) J.
Proof.
  intros Hne. unfold handleJobFailure.
  destruct (GetJob (db w) id) as [job|]; auto.
  destruct (max_retries job <=? retry_count job).
  - unfold set_db, PushDeadLetter; cbn [db].
    apply GetJob_update_other with (id := id);
      [intros x; apply eqb_id | exact Hne | reflexivity].
  - assert (Hi : GetJob (snd (IncrementRetryCount (db w) id)) J = GetJob (db w) J)
      by (apply GetJob_update_other with (id := id);
          [intros x; apply eqb_id | exact Hne | reflexivity]).
    destruct (IncrementRetryCount (db w) id) as [[?|] d']; cbn [snd] in Hi; auto.
    destruct (retry_delay (retry_count job)); cbn [db set_db]; exact Hi.
Qed.

(** The handler's re-queue of a row with retries left. *)
Lemma handleJobFailure_requeue_row now J e w j :
  GetJob (db w) J = Some j -> retry_count j < max_retries j ->
  GetJob (db (handleJobFailure now J e w)) J =
    Some (mkJob (job_id j) (input_key j) Queued (error_message j)
                (retry_count j + 1) (max_retries j) None None).
Proof.
  intros Hg Hc. unfold handleJobFailure. rewrite Hg.
  assert (Hc' : (max_retries j <=? retry_count j) = false) by (apply Z.leb_gt; exact Hc).
  rewrite Hc'.
  assert (Hi : GetJob (snd (IncrementRetryCount (db w) J)) J =
     Some (mkJob (job_id j) (input_key j) Queued (error_message j)
                 (retry_count j + 1) (max_retries j) None None)).
  { unfold IncrementRetryCount. rewrite GetJob_update_by_id by reflexivity.
    rewrite Hg; reflexivity. }
  destruct (IncrementRetryCount (db w) J) as [[?|] d'] eqn:Ei; cbn [snd] in Hi.
  - destruct (retry_delay (retry_count j)); cbn [db set_db]; exact Hi.
  - unfold IncrementRetryCount, update_jobs in Ei. injection Ei as Ei _.
    unfold GetJob in Hg. rewrite Hg in Ei. discriminate.
Qed.

(** The handler's terminal update of a row with no retries left. *)
Lemma handleJobFailure_exhausted_row now J e w j :
  GetJob (db w) J = Some j -> max_retries j <= retry_count j ->
  GetJob (db (handleJobFailure now J e w)) J =
    Some (mkJob (job_id j) (input_key j) Failed
                (Some ("exceeded max retries: " ++ e)%string)
                (retry_count j) (max_retries j) (started_at j) (worker_id j)).
Proof.
  intros Hg Hc. unfold handleJobFailure. rewrite Hg.
  apply Z.leb_le in Hc. rewrite Hc.
  unfold set_db, PushDeadLetter; cbn [db].
  unfold UpdateJobStatus. rewrite GetJob_update_by_id by reflexivity.
  rewrite Hg. reflexivity.
Qed.

(** [processJob] on the id of such a row: the claim matches no row, the
    database is unchanged and the claim error is returned. *)
Lemma processJob_on_failed env now wid tok J d j :
  NoDup (map job_id (jobs d)) -> GetJob d J = Some j -> status j = Failed ->
  processJob_with_id env now wid tok J d =
    (d, Some ("failed to claim job for processing: " ++ errNoRows)%string).
Proof.
  intros Hnd Hg Hs. unfold processJob_with_id.
  assert (Hf : find (claimable now J) (jobs d) = None).
  { apply find_none_intro. intros x Hx.
    destruct (claimable now J x) eqn:Ec; auto.
    assert (x = j) by (apply (GetJob_unique d J j x Hnd Hg Hx (claimable_id _ _ _ Ec))).
    subst x. unfold claimable in Ec. rewrite Hs in Ec. simpl in Ec.
    rewrite andb_false_r in Ec. discriminate. }
  assert (Hn : fst (StartJobProcessing d now J wid) = None)
    by (unfold StartJobProcessing, update_jobs; cbn [fst]; rewrite Hf; reflexivity).
  assert (Hd : snd (StartJobProcessing d now J wid) = d)
    by (apply update_jobs_none; exact Hn).
  destruct (StartJobProcessing d now J wid) as [[?|] d1]; cbn [fst snd] in *;
    [discriminate|]. subst d1. reflexivity.
Qed.

Lemma processJob_exhausted env now wid tok d J :
  NoDup (map job_id (jobs d)) -> exhausted_failed d J ->
  exhausted_failed (fst (processJob env now wid tok d)) J.
Proof.
  intros Hnd Hex.
  destruct (processJob_cases env now wid tok d) as [[e ->]|[K ->]]; [exact Hex|].
  destruct (String.eqb_spec K J) as [<-|Hne].
  - destruct Hex as (j & Hg & Hst & Hc).
    rewrite (processJob_on_failed env now wid tok K d j Hnd Hg Hst).
    exists j. auto.
  - destruct Hex as (j & Hg & Hst & Hc). exists j.
    rewrite processJob_with_id_other by exact Hne. auto.
Qed.

Lemma handleJobFailure_exhausted now tok e w J :
  exhausted_failed (db w) J -> exhausted_failed (db (handleJobFailure now tok e w)) J.
Proof.
  intros (j & Hg & Hst & Hc).
  destruct (String.eqb_spec tok J) as [<-|Hne].
  - eexists. split; [apply (handleJobFailure_exhausted_row now tok e w j Hg Hc)|].
    split; [reflexivity | exact Hc].
  - exists j. rewrite handleJobFailure_other by exact Hne. auto.
Qed.

Lemma exhausted_failed_step w w' J :
  jobs_ok (db w) -> exhausted_failed (db w) J -> sys_step w w' ->
  exhausted_failed (db w') J.
Proof.
  intros Hok Hex Hs. destruct Hs as [out new_id req w|env now wid w|l1 l2 t id w Hs|l1 l2 lk w Hs].
  - destruct Hex as (j & Hg & Hst & Hc). exists j. split; auto.
    destruct (CreateJob_handler_cases out new_id req w) as [->|(_ & _ & _ & _ & ->)];
      [exact Hg|].
    cbn [db]. unfold GetJob. rewrite create_renditions_jobs. cbn [jobs].
    apply find_app_l. exact Hg.
  - unfold worker_step.
    destruct (pop_right (pending w)) as [[jobID rest]|]; [|exact Hex].
    unfold worker_iteration, Lock. cbn [db locks].
    destruct (existsb _ _); [exact Hex|].
    cbn [negb db pending dead scheduled locks].
    pose proof (processJob_exhausted env now wid jobID (db w) J (proj1 Hok) Hex) as Hp.
    destruct (processJob env now wid jobID (db w)) as [d2 [e|]]; cbn [fst] in Hp;
      unfold Unlock; cbn [db].
    + apply handleJobFailure_exhausted. exact Hp.
    + exact Hp.
  - exact Hex.
  - exact Hex.
Qed.

(** [processJob] when the claim takes the row and the input download fails:
    [markJobFailed] leaves the row 'failed' with the download error. *)
Lemma processJob_setup_failure env now wid tok J d j m :
  GetJob d J = Some j -> claimable now J j = true ->
  setup_error env (input_key j) = Some m ->
  processJob_with_id env now wid tok J d =
    (snd (UpdateJobStatus (snd (StartJobProcessing d now J wid)) J Failed (Some m)),
     Some m) /\
  GetJob (fst (processJob_with_id env now wid tok J d)) J =
    Some (mkJob (job_id j) (input_key j) Failed (Some m)
            (retry_count j) (max_retries j) (Some now) (Some wid)).
Proof.
  intros Hg Hc Hse.
  assert (Hf : find (claimable now J) (jobs d) = Some j)
    by (apply (find_first_selected (claimable now J) d J j);
        [intros x; apply claimable_id | exact Hg | exact Hc]).
  assert (Hr : GetJob (snd (StartJobProcessing d now J wid)) J =
     Some (mkJob (job_id j) (input_key j) Processing None
                 (retry_count j) (max_retries j) (Some now) (Some wid))).
  { unfold StartJobProcessing.
    apply (GetJob_update_first (claimable now J)
             (fun x => mkJob (job_id x) (input_key x) Processing None
                         (retry_count x) (max_retries x) (Some now) (Some wid)));
      [intros x; apply claimable_id | reflexivity | exact Hg | exact Hc]. }
  assert (Hfirst : processJob_with_id env now wid tok J d =
    (snd (UpdateJobStatus (snd (StartJobProcessing d now J wid)) J Failed (Some m)),
     Some m)).
  { unfold processJob_with_id.
    assert (Hs : fst (StartJobProcessing d now J wid) =
      Some (mkJob (job_id j) (input_key j) Processing None
                  (retry_count j) (max_retries j) (Some now) (Some wid)))
      by (unfold StartJobProcessing, update_jobs; cbn [fst]; rewrite Hf; reflexivity).
    destruct (StartJobProcessing d now J wid) as [r d1]; cbn [fst snd] in *.
    subst r. cbn [input_key]. unfold setup_error in Hse.
    destruct (mkdir_err env) as [e|];
      [injection Hse as <-; reflexivity|].
    destruct (download_err env (input_key j)) as [e|];
      [injection Hse as <-; reflexivity|].
    destruct (list_renditions_err env) as [e|];
      [injection Hse as <-; reflexivity | discriminate]. }
  split; [exact Hfirst|].
  rewrite Hfirst; cbn [fst]. unfold UpdateJobStatus.
  rewrite GetJob_update_by_id by reflexivity. rewrite Hr. reflexivity.
Qed.

Lemma UpdateJobStatus_read d0 J st m j1 :
  GetJob (snd (UpdateJobStatus d0 J st m)) J = Some j1 ->
  status j1 = st /\ error_message j1 = m.
Proof.
  unfold UpdateJobStatus. rewrite GetJob_update_by_id by reflexivity.
  destruct (GetJob d0 J); cbn [option_map]; [|discriminate].
  intros H; injection H as <-. split; reflexivity.
Qed.

(** Claim C3 (amended): only the claim checks the current status.
    [StartJobProcessing] never rewrites a 'completed' or 'failed' row; a row
    that is 'failed' with retry_count >= max_retries (as the retry handler
    leaves it) stays 'failed' with retries exhausted under every later step
    of the system; but 'failed' written by [markJobFailed] when creating the
    temp dir, downloading the input or listing the renditions fails is not
    terminal: with retries left, the retry handler run next on the returned
    error sets the row back to 'queued' (stated for a job token in the
    canonical form [uuidToString] gives, as the API pushes it). *)
Theorem failed_status_terminal_only_when_exhausted (w : World) (J : string)
  (Hok : jobs_ok (db w)) :
  (forall now id wid,
     Forall2 (fun j0 j1 => status j0 = Completed \/ status j0 = Failed -> j1 = j0)
       (jobs (db w)) (jobs (snd (StartJobProcessing (db w) now id wid)))) /\
  (forall w', exhausted_failed (db w) J -> sys_step w w' -> exhausted_failed (db w') J) /\
  (forall env now wid j m,
     canonical_token J = true ->
     GetJob (db w) J = Some j -> claimable now J j = true ->
     setup_error env (input_key j) = Some m ->
     retry_count j < max_retries j ->
     option_map status (GetJob (fst (processJob env now wid J (db w))) J) = Some Failed /\
     snd (processJob env now wid J (db w)) = Some m /\
     option_map status
       (GetJob (db (handleJobFailure now J m
                      (set_db w (fst (processJob env now wid J (db w)))))) J)
       = Some Queued).
Proof.
  split; [|split].
  - intros now id wid. unfold StartJobProcessing, update_jobs; cbn [snd jobs].
    eapply Forall2_impl; [|apply Forall2_map_if].
    intros x y [[Hp ->] | [_ ->]] Hst; [|reflexivity].
    apply claimable_spec in Hp as (_ & [Hq | (Hq & _)]); exfalso;
      destruct Hst as [Hst|Hst]; rewrite Hst in Hq; discriminate.
  - intros w' Hex Hs. exact (exhausted_failed_step w w' J Hok Hex Hs).
  - intros env now wid j m Hcan Hg Hc Hse Hlt.
    rewrite (processJob_canonical env now wid J (db w) Hcan).
    pose proof (processJob_setup_failure env now wid J J (db w) j m Hg Hc Hse)
      as [Hp Hd].
    rewrite Hd. split; [reflexivity|]. split; [rewrite Hp; reflexivity|].
    rewrite (handleJobFailure_requeue_row now J _
               (set_db w (fst (processJob_with_id env now wid J J (db w)))) _ Hd)
      by (simpl; exact Hlt).
    reflexivity.
Qed.

(** Claim C8 (amended): a non-null error_message is only written together
    with status 'failed'. After [processJob] on token [J], the row of [J] is
    unchanged (claim refused), or 'completed' with no error message, or
    'failed' with the returned error as its message (markJobFailed); a
    successful claim clears the message; the retry handler either writes
    'failed' with "exceeded max retries: " and the error (no retries left) or
    sets 'queued' keeping the row's current error message (retries left), so
    a message written by markJobFailed stays on a re-queued job until its
    next claim. *)
Theorem error_message_written_with_failed (J : string) (d : DB) (w : World) :
  (forall env now wid j1,
     GetJob (fst (processJob env now wid J d)) J = Some j1 ->
     GetJob d J = Some j1 \/
     (status j1 = Completed /\ error_message j1 = None) \/
     (status j1 = Failed /\ error_message j1 <> None /\
      error_message j1 = snd (processJob env now wid J d))) /\
  (forall now wid j, fst (StartJobProcessing d now J wid) = Some j ->
     error_message j = None) /\
  (forall now e j, GetJob (db w) J = Some j ->
     (max_retries j <= retry_count j ->
        option_map (fun x => (status x, error_message x))
          (GetJob (db (handleJobFailure now J e w)) J)
        = Some (Failed, Some ("exceeded max retries: " ++ e)%string)) /\
     (retry_count j < max_retries j ->
        option_map (fun x => (status x, error_message x))
          (GetJob (db (handleJobFailure now J e w)) J)
        = Some (Queued, error_message j))).
Proof.
  split; [|split].
  - intros env now wid j1.
    destruct (processJob_cases env now wid J d) as [[e0 ->]|[K ->]];
      [intros H; left; exact H|].
    destruct (String.eqb_spec K J) as [->|HKJ];
      [|rewrite processJob_with_id_other by exact HKJ; intros H; left; exact H].
    unfold processJob_with_id.
    destruct (StartJobProcessing d now J wid) as [[job|] d1] eqn:Es.
    + assert (Hmf : forall m, GetJob (fst (markJobFailed d1 J m)) J = Some j1 ->
                 status j1 = Failed /\ error_message j1 <> None /\
                 error_message j1 = snd (markJobFailed d1 J m)).
      { intros m Hm. cbn [fst markJobFailed] in Hm.
        apply UpdateJobStatus_read in Hm as [H1 H2].
        split; [exact H1|]. rewrite H2. split; [discriminate|reflexivity]. }
      destruct (mkdir_err env); [intros H; right; right; apply Hmf; exact H|].
      destruct (download_err env (input_key job)); [intros H; right; right; apply Hmf; exact H|].
      destruct (list_renditions_err env); [intros H; right; right; apply Hmf; exact H|].
      cbv zeta.
      set (d2 := process_renditions env J (input_name (input_key job))
                   (GetRenditionsByJobID d1 J) d1).
      destruct (UpdateJobStatus d2 J Completed None) as [r3 d3] eqn:Eu.
      assert (Hd3 : d3 = snd (UpdateJobStatus d2 J Completed None)) by (rewrite Eu; reflexivity).
      intros H. right; left.
      assert (H' : GetJob (snd (UpdateJobStatus d2 J Completed None)) J = Some j1)
        by (rewrite <- Hd3; destruct r3; exact H).
      apply UpdateJobStatus_read in H'. exact H'.
    + assert (Hd : snd (StartJobProcessing d now J wid) = d)
        by (apply update_jobs_none;
            change (fst (StartJobProcessing d now J wid) = None); rewrite Es; reflexivity).
      rewrite Es in Hd. cbn [snd fst] in *. subst d1. intros H; left; exact H.
  - intros now wid j. unfold StartJobProcessing, update_jobs; cbn [fst].
    destruct (find _ _); cbn [option_map]; [|discriminate].
    intros H; injection H as <-. reflexivity.
  - intros now e j Hg. split; intros Hc.
    + rewrite (handleJobFailure_exhausted_row now J e w j Hg Hc). reflexivity.
    + rewrite (handleJobFailure_requeue_row now J e w j Hg Hc). reflexivity.
Qed.

(* ------------------------------------------------------------------ *)
(** ** Job creation *)

Lemma existsb_rendition_pair (jid x : string) (l : list Rendition) :
  existsb (fun r => String.eqb (rend_job_id r) jid && String.eqb (resolution r) x) l =
  existsb (String.eqb x)
    (map resolution (filter (fun r => String.eqb (rend_job_id r) jid) l)).
Proof.
  induction l as [|r l IH]; simpl; auto.
  destruct (String.eqb (rend_job_id r) jid); simpl; rewrite IH; auto.
  rewrite String.eqb_sym. reflexivity.
Qed.

Lemma create_renditions_resolutions (errs : nat -> option string) (i : nat)
  (jid : string) (rs : list string) (d : DB) :
  resolutions_of (create_renditions errs i jid rs d) jid =
  resolutions_of d jid ++ dedup (resolutions_of d jid) (inserted_resolutions errs i rs).
Proof.
  revert i d. induction rs as [|x rs IH]; intros i d; simpl.
  - rewrite app_nil_r. reflexivity.
  - rewrite IH. unfold CreateRendition.
    destruct (errs i) as [e|]; [reflexivity|]. cbn [dedup].
    rewrite existsb_rendition_pair. fold (resolutions_of d jid).
    destruct (existsb (String.eqb x) (resolutions_of d jid)); [reflexivity|].
    assert (Hr : resolutions_of
       (snd (Some (mkRendition (next_rend_id d) jid x None),
             mkDB (jobs d) (renditions d ++ [mkRendition (next_rend_id d) jid x None])
                  (S (next_rend_id d)))) jid = resolutions_of d jid ++ [x]).
    { unfold resolutions_of; cbn [snd renditions].
      rewrite filter_app, map_app. simpl. rewrite String.eqb_refl. reflexivity. }
    rewrite Hr, <- app_assoc. reflexivity.
Qed.

Lemma find_app_none {A} (p : A -> bool) (l : list A) (x : A) :
  find p l = None -> p x = true -> find p (l ++ [x]) = Some x.
Proof.
  induction l as [|y l IH]; simpl; intros Hn Hx.
  - rewrite Hx; reflexivity.
  - destruct (p y); [discriminate|]. apply IH; auto.
Qed.

(** Claim C7 (amended): [CreateJob] answers 400 to an empty input_key and
    500 when the job INSERT fails, writing nothing in both cases. Otherwise
    it inserts the job row with status 'queued', retry_count 0 and
    max_retries 3, replaces an empty resolutions list by ["480p"; "720p";
    "1080p"] and inserts the renditions one statement at a time, with no
    transaction: a failed insert (backend error, or a duplicate rejected by
    UNIQUE(job_id, resolution)) is skipped and the answer is still 201. The
    job ends with one rendition per distinct resolution whose insert met no
    backend error, in order of first occurrence. The id is pushed on
    [jobs:pending] unless the push fails, which is only logged. *)
Theorem CreateJob_handler_effect (out : ApiOutcomes) (new_id : string)
  (req : CreateJobRequest) (w : World)
  (Hfresh : GetJob (db w) new_id = None)
  (Hnorend : forall r, In r (renditions (db w)) -> rend_job_id r <> new_id) :
  let (code, w') := CreateJob_handler out new_id req w in
  (req_input_key req = ""%string -> code = 400%nat /\ w' = w) /\
  (req_input_key req <> ""%string -> create_job_err out <> None ->
     code = 500%nat /\ w' = w) /\
  (req_input_key req <> ""%string -> create_job_err out = None ->
     code = 201%nat /\
     GetJob (db w') new_id =
       Some (mkJob new_id (req_input_key req) Queued None 0 3 None None) /\
     resolutions_of (db w') new_id =
       dedup [] (inserted_resolutions (rendition_err out) 0
                   (match req_resolutions req with
                    | [] => default_resolutions
                    | rs => rs
                    end)) /\
     pending w' = match push_err out with
                  | None => new_id :: pending w
                  | Some _ => pending w
                  end).
Proof.
  unfold CreateJob_handler.
  destruct (String.eqb_spec (req_input_key req) ""%string) as [He|Hne].
  - split; [intros _; split; reflexivity | split; intros H; contradiction].
  - unfold CreateJob_query.
    destruct (create_job_err out) as [e|] eqn:Ee.
    + split; [intros H; contradiction|].
      split; [intros _ _; split; reflexivity|]. intros _ H; discriminate.
    + rewrite Hfresh. split; [intros H; contradiction|].
      split; [intros _ H; contradiction H; reflexivity|]. intros _ _.
      split; [reflexivity|]. cbn [db pending job_id].
      split; [|split; [|reflexivity]].
      * unfold GetJob. rewrite create_renditions_jobs. cbn [jobs].
        apply find_app_none; [exact Hfresh | apply String.eqb_refl].
      * rewrite create_renditions_resolutions.
        assert (H0 : resolutions_of (mkDB (jobs (db w) ++
                       [mkJob new_id (req_input_key req) Queued None 0 3 None None])
                       (renditions (db w)) (next_rend_id (db w))) new_id = []).
        { unfold resolutions_of; cbn [renditions].
          induction (renditions (db w)) as [|r l IH]; [reflexivity|]. simpl.
          destruct (String.eqb_spec (rend_job_id r) new_id) as [E|_].
          - exfalso. apply (Hnorend r); [left; reflexivity | exact E].
          - apply IH. intros r' Hr'. apply Hnorend; right; exact Hr'. }
        rewrite H0. reflexivity.
Qed.

(* ------------------------------------------------------------------ *)
(** ** Output locators *)

Lemma list_ascii_of_string_app (s1 s2 : string) :
  list_ascii_of_string (s1 ++ s2) = list_ascii_of_string s1 ++ list_ascii_of_string s2.
Proof. induction s1 as [|c s1 IH]; simpl; [reflexivity|]. rewrite IH; reflexivity. Qed.

Lemma string_of_list_ascii_app (a b : list ascii) :
  string_of_list_ascii (a ++ b) = (string_of_list_ascii a ++ string_of_list_ascii b)%string.
Proof. induction a as [|c a IH]; simpl; [reflexivity|]. rewrite IH; reflexivity. Qed.

Lemma take_while_app (p : ascii -> bool) (a l : list ascii) :
  forallb p a = true -> take_while p (a ++ l) = a ++ take_while p l.
Proof.
  induction a as [|c a IH]; simpl; auto.
  intros H. apply andb_true_iff in H as [Hc Ha]. rewrite Hc, IH; auto.
Qed.

Lemma forallb_rev {A} (p : A -> bool) (l : list A) :
  forallb p (rev l) = forallb p l.
Proof.
  induction l as [|x l IH]; simpl; auto.
  rewrite forallb_app, IH. simpl. rewrite andb_true_r, andb_comm. reflexivity.
Qed.

Lemma ext_scan_app (b rest acc : list ascii) :
  forallb (fun c => negb (is_slash c || is_dot c)) b = true ->
  ext_scan (b ++ rest) acc = ext_scan rest (rev b ++ acc).
Proof.
  revert acc. induction b as [|c b IH]; intros acc; simpl; auto.
  intros H. apply andb_true_iff in H as [Hc Hb].
  destruct (is_slash c); [discriminate|]. destruct (is_dot c); [discriminate|].
  rewrite IH by exact Hb. rewrite <- app_assoc. reflexivity.
Qed.

Lemma substring_whole (s : string) : substring 0 (String.length s) s = s.
Proof. induction s as [|c s IH]; simpl; [reflexivity|]. rewrite IH; reflexivity. Qed.


Lemma substring_app_r (s1 s2 : string) :
  substring (String.length s1) (String.length s2) (s1 ++ s2) = s2.
Proof. induction s1 as [|c s1 IH]; simpl; [apply substring_whole | exact IH]. Qed.

Lemma substring_app_l (s1 s2 : string) :
  substring 0 (String.length s1) (s1 ++ s2) = s1.
Proof.
  induction s1 as [|c s1 IH]; simpl; [destruct s2; reflexivity|].
  rewrite IH; reflexivity.
Qed.

Lemma length_app (s1 s2 : string) :
  String.length (s1 ++ s2) = (String.length s1 + String.length s2)%nat.
Proof. induction s1 as [|c s1 IH]; simpl; auto. Qed.

Lemma trim_suffix_app (s1 s2 : string) : trim_suffix (s1 ++ s2) s2 = s1.
Proof.
  unfold trim_suffix. rewrite length_app.
  replace (String.length s1 + String.length s2 - String.length s2)%nat
    with (String.length s1) by lia.
  rewrite substring_app_r, String.eqb_refl, substring_app_l.
  replace (Nat.leb (String.length s2) (String.length s1 + String.length s2)) with true
    by (symmetry; apply Nat.leb_le; lia).
  reflexivity.
Qed.

(** [input_name] on a key [dir/name.ext], where [name] has no ['/'] and
    [ext] has neither ['/'] nor ['.']: the base name without extension. *)
Lemma input_name_dir_name_ext (dir name ext : string) :
  forallb (fun c => negb (is_slash c)) (list_ascii_of_string name) = true ->
  forallb (fun c => negb (is_slash c || is_dot c)) (list_ascii_of_string ext) = true ->
  input_name (dir ++ "/" ++ name ++ "." ++ ext) = name.
Proof.
  intros Hn He.
  set (N := list_ascii_of_string name). set (E := list_ascii_of_string ext).
  assert (HE' : forallb (fun c => negb (is_slash c)) E = true).
  { apply forallb_forall. intros c Hc. rewrite forallb_forall in He.
    specialize (He c Hc). destruct (is_slash c); simpl in *; auto. }
  assert (Hbase : go_base (dir ++ "/" ++ name ++ "." ++ ext) = (name ++ "." ++ ext)%string).
  { assert (Hl : list_ascii_of_string (dir ++ "/" ++ name ++ "." ++ ext) =
                 list_ascii_of_string dir ++ "/"%char :: N ++ "."%char :: E).
    { rewrite list_ascii_of_string_app. simpl. rewrite list_ascii_of_string_app. reflexivity. }
    assert (Hr : rev (list_ascii_of_string (dir ++ "/" ++ name ++ "." ++ ext)) =
                 rev E ++ "."%char :: rev N ++ "/"%char :: rev (list_ascii_of_string dir)).
    { rewrite Hl, rev_app_distr. simpl. rewrite rev_app_distr. simpl.
      rewrite <- !app_assoc. reflexivity. }
    assert (Hd : drop_while is_slash (rev E ++ "."%char :: rev N ++ "/"%char ::
                   rev (list_ascii_of_string dir)) =
                 rev E ++ "."%char :: rev N ++ "/"%char :: rev (list_ascii_of_string dir)).
    { pose proof HE' as H'. rewrite <- forallb_rev in H'.
      destruct (rev E) as [|c l]; [reflexivity|]. simpl in H' |- *.
      apply andb_true_iff in H' as [Hc _]. destruct (is_slash c); [discriminate|reflexivity]. }
    assert (Ht : take_while (fun c => negb (is_slash c))
                   (rev E ++ "."%char :: rev N ++ "/"%char :: rev (list_ascii_of_string dir)) =
                 rev E ++ "."%char :: rev N).
    { rewrite take_while_app by (rewrite forallb_rev; exact HE'). simpl.
      rewrite take_while_app by (rewrite forallb_rev; exact Hn). simpl.
      rewrite app_nil_r. reflexivity. }
    unfold go_base.
    destruct (dir ++ "/" ++ name ++ "." ++ ext)%string as [|c0 s0] eqn:Ek.
    { destruct dir; discriminate. }
    rewrite Hr, Hd, Ht.
    assert (Hm : forall l0 : list ascii, l0 <> [] ->
       match l0 with
       | [] => "/"%string
       | a :: l => string_of_list_ascii (rev (a :: l))
       end = string_of_list_ascii (rev l0))
      by (intros [|a l] H; [contradiction|reflexivity]).
    rewrite Hm by (destruct (rev E); discriminate).
    rewrite rev_app_distr. simpl. rewrite !rev_involutive, <- app_assoc. simpl.
    rewrite string_of_list_ascii_app. simpl.
    unfold N, E. rewrite !string_of_list_ascii_of_string. reflexivity. }
  unfold input_name. rewrite Hbase.
  assert (Hext : go_ext (name ++ "." ++ ext) = ("." ++ ext)%string).
  { unfold go_ext. rewrite list_ascii_of_string_app. simpl.
    fold N E. rewrite rev_app_distr. simpl. rewrite <- app_assoc. simpl.
    rewrite ext_scan_app by (rewrite forallb_rev; exact He).
    rewrite rev_involutive, app_nil_r. simpl.
    unfold E. rewrite string_of_list_ascii_of_string. reflexivity. }
  rewrite Hext. apply trim_suffix_app.
Qed.

(** *** Output locators written by [processJob] *)

Lemma NoDup_map_inj {A B} (f : A -> B) (l : list A) (x y : A) :
  NoDup (map f l) -> In x l -> In y l -> f x = f y -> x = y.
Proof.
  induction l as [|a l IH]; simpl; intros Hnd Hx Hy Hf; [destruct Hx|].
  apply NoDup_cons_iff in Hnd as [Hna Hnd'].
  destruct Hx as [<-|Hx], Hy as [<-|Hy]; auto.
  - exfalso; apply Hna; rewrite Hf; apply in_map; exact Hy.
  - exfalso; apply Hna; rewrite <- Hf; apply in_map; exact Hx.
Qed.

Lemma insert_by_resolution_In (r x : Rendition) (l : list Rendition) :
  In x (insert_by_resolution r l) -> x = r \/ In x l.
Proof.
  induction l as [|y l IH]; simpl.
  - intros [H|[]]; auto.
  - destruct (String.leb (resolution r) (resolution y)); simpl.
    + intros [H|[H|H]]; auto.
    + intros [H|H]; auto. destruct (IH H); auto.
Qed.

Lemma sort_by_resolution_In (x : Rendition) (l : list Rendition) :
  In x (sort_by_resolution l) -> In x l.
Proof.
  induction l as [|y l IH]; simpl; auto.
  intros H. apply insert_by_resolution_In in H as [H|H]; auto.
Qed.

Lemma GetRenditionsByJobID_In (d : DB) (id : string) (r : Rendition) :
  In r (GetRenditionsByJobID d id) -> In r (renditions d) /\ rend_job_id r = id.
Proof.
  unfold GetRenditionsByJobID. intros H.
  apply sort_by_resolution_In, filter_In in H as [H1 H2].
  split; [exact H1|]. apply String.eqb_eq; exact H2.
Qed.

Lemma Forall2_refl_rel {A} (R : A -> A -> Prop) (l : list A) :
  (forall x, R x x) -> Forall2 R l l.
Proof. intros H; induction l; constructor; auto. Qed.

Section Locators.
Variables (tok name : string) (d0 : list Rendition).
Hypothesis Hnd : NoDup (map rend_id d0).




End Locators.





Lemma UpdateJobStatus_renditions d id st m :
  renditions (snd (UpdateJobStatus d id st m)) = renditions d.
Proof. reflexivity. Qed.


(* ------------------------------------------------------------------ *)
(** ** The properties at concrete inputs *)

Lemma handleJobFailure_retry_policy_witness :
  GetJob (db demo_submitted) demo_job = Some demo_row /\ 0 <= retry_count demo_row /\
  (let w' := handleJobFailure 1000 demo_job "exit status 1" demo_submitted in
   (max_retries demo_row <= retry_count demo_row ->
      dead w' = demo_job :: dead demo_submitted /\ pending w' = pending demo_submitted /\
      scheduled w' = scheduled demo_submitted /\ locks w' = locks demo_submitted /\
      GetJob (db w') demo_job =
        Some (mkJob (job_id demo_row) (input_key demo_row) Failed
                (Some ("exceeded max retries: " ++ "exit status 1")%string)
                (retry_count demo_row) (max_retries demo_row)
                (started_at demo_row) (worker_id demo_row))) /\
   (retry_count demo_row < max_retries demo_row ->
      dead w' = dead demo_submitted /\ pending w' = pending demo_submitted /\
      locks w' = locks demo_submitted /\
      GetJob (db w') demo_job =
        Some (mkJob (job_id demo_row) (input_key demo_row) Queued (error_message demo_row)
                (retry_count demo_row + 1) (max_retries demo_row) None None) /\
      exists delay,
        scheduled w' = (1000 + delay, demo_job) :: scheduled demo_submitted /\
        (retry_count demo_row < 3 ->
           nth_error retryDelays (Z.to_nat (retry_count demo_row)) = Some delay) /\
        (3 <= retry_count demo_row -> delay = 60))).
Proof.
  assert (Hg : GetJob (db demo_submitted) demo_job = Some demo_row)
    by (vm_compute; reflexivity).
  assert (Hn : 0 <= retry_count demo_row) by (simpl; lia).
  split; [exact Hg|]. split; [exact Hn|].
  exact (handleJobFailure_retry_policy 1000 demo_job "exit status 1" demo_submitted
           demo_row Hg Hn).
Defined.

Lemma retry_bound_and_dead_letter_witness :
  reachable demo_submitted /\
  Forall (fun j => retry_count j <= max_retries j) (jobs (db demo_submitted)) /\
  (forall w' id, sys_step demo_submitted w' -> dead w' = id :: dead demo_submitted ->
     exists j, GetJob (db w') id = Some j /\ retry_count j = max_retries j).
Proof.
  assert (Hr : reachable demo_submitted)
    by exact (reach_step _ _ reach_init (step_submit _ _ _ _)).
  split; [exact Hr|]. exact (retry_bound_and_dead_letter demo_submitted Hr).
Defined.

Lemma failed_status_terminal_only_when_exhausted_witness :
  jobs_ok (db demo_submitted) /\
  (forall now id wid,
     Forall2 (fun j0 j1 => status j0 = Completed \/ status j0 = Failed -> j1 = j0)
       (jobs (db demo_submitted))
       (jobs (snd (StartJobProcessing (db demo_submitted) now id wid)))) /\
  (forall w', exhausted_failed (db demo_submitted) demo_job ->
     sys_step demo_submitted w' -> exhausted_failed (db w') demo_job) /\
  (forall env now wid j m,
     canonical_token demo_job = true ->
     GetJob (db demo_submitted) demo_job = Some j -> claimable now demo_job j = true ->
     setup_error env (input_key j) = Some m ->
     retry_count j < max_retries j ->
     option_map status
       (GetJob (fst (processJob env now wid demo_job (db demo_submitted))) demo_job)
       = Some Failed /\
     snd (processJob env now wid demo_job (db demo_submitted)) = Some m /\
     option_map status
       (GetJob (db (handleJobFailure now demo_job m
                      (set_db demo_submitted
                         (fst (processJob env now wid demo_job (db demo_submitted))))))
          demo_job)
       = Some Queued).
Proof.
  assert (Hok : jobs_ok (db demo_submitted)).
  { assert (E : jobs (db demo_submitted) = [demo_row]) by (vm_compute; reflexivity).
    unfold jobs_ok. rewrite E. split.
    - apply NoDup_cons; [intros []|apply NoDup_nil].
    - constructor; [|constructor]. unfold retry_bounds; simpl; lia. }
  split; [exact Hok|].
  exact (failed_status_terminal_only_when_exhausted demo_submitted demo_job Hok).
Defined.

Lemma CreateJob_handler_effect_witness :
  GetJob (db empty_world) demo_job = None /\
  (forall r, In r (renditions (db empty_world)) -> rend_job_id r <> demo_job) /\
  (let req := mkCreateJobRequest "uploads/a/v.mp4" ["480p"; "720p"; "480p"]%string in
   let (code, w') := CreateJob_handler api_flaky demo_job req empty_world in
   (req_input_key req = ""%string -> code = 400%nat /\ w' = empty_world) /\
   (req_input_key req <> ""%string -> create_job_err api_flaky <> None ->
      code = 500%nat /\ w' = empty_world) /\
   (req_input_key req <> ""%string -> create_job_err api_flaky = None ->
      code = 201%nat /\
      GetJob (db w') demo_job =
        Some (mkJob demo_job (req_input_key req) Queued None 0 3 None None) /\
      resolutions_of (db w') demo_job =
        dedup [] (inserted_resolutions (rendition_err api_flaky) 0
                    (match req_resolutions req with
                     | [] => default_resolutions
                     | rs => rs
                     end)) /\
      pending w' = match push_err api_flaky with
                   | None => demo_job :: pending empty_world
                   | Some _ => pending empty_world
                   end)).
Proof.
  assert (Hf : GetJob (db empty_world) demo_job = None) by reflexivity.
  assert (Hn : forall r, In r (renditions (db empty_world)) -> rend_job_id r <> demo_job)
    by (intros r []).
  split; [exact Hf|]. split; [exact Hn|].
  exact (CreateJob_handler_effect api_flaky demo_job
           (mkCreateJobRequest "uploads/a/v.mp4" ["480p"; "720p"; "480p"]%string)
           empty_world Hf Hn).
Defined.


(* ================================================================== *)
(** * Further properties of the code *)

(* ------------------------------------------------------------------ *)
(** ** The transcoder *)

Lemma Transcode_unknown (run : list string -> option (string * string))
  (inputPath outputPath r : string) :
  ~ In r ["480p"; "720p"; "1080p"]%string ->
  Transcode run inputPath outputPath r = Some ("unknown resolution profile: " ++ r)%string.
Proof.
  intros Hr. unfold Transcode, GetProfile, DefaultProfiles. cbn [assoc_lookup].
  destruct (String.eqb_spec "480p" r) as [<-|_]; [exfalso; apply Hr; simpl; tauto|].
  destruct (String.eqb_spec "720p" r) as [<-|_]; [exfalso; apply Hr; simpl; tauto|].
  destruct (String.eqb_spec "1080p" r) as [<-|_]; [exfalso; apply Hr; simpl; tauto|].
  reflexivity.
Qed.

(** [Transcode] fails with "unknown resolution profile: " and the name,
    without running FFmpeg, for every resolution other than 480p, 720p and
    1080p; for those it runs [ffmpeg -i in -vf scale=-2:<height> -c:v
    libx264 -preset fast -c:a aac -y out] and fails exactly when FFmpeg
    does. *)
Theorem Transcode_profiles (run : list string -> option (string * string))
  (inputPath outputPath : string) :
  (forall r, ~ In r ["480p"; "720p"; "1080p"]%string ->
     Transcode run inputPath outputPath r =
       Some ("unknown resolution profile: " ++ r)%string) /\
  (forall h, In h ["480"; "720"; "1080"]%string ->
     Transcode run inputPath outputPath (h ++ "p") =
       match run ["-i"; inputPath; "-vf"; "scale=-2:" ++ h; "-c:v"; "libx264";
                  "-preset"; "fast"; "-c:a"; "aac"; "-y"; outputPath]%string with
       | None => None
       | Some (e, out) =>
           Some ("ffmpeg failed: " ++ e ++ String "010"%char ("Output: " ++ out))%string
       end).
Proof.
  split; [apply Transcode_unknown|].
  intros h [<-|[<-|[<-|[]]]]; reflexivity.
Qed.

(** The rendition loop writes a row only for a rendition it processed
    whose transcode and upload succeeded. *)
Lemma process_renditions_written (env : Env) (tok name : string) (d0 : list Rendition)
  (Hnd : NoDup (map rend_id d0)) (rs : list Rendition) (dd : DB) :
  (forall r, In r rs -> In r d0) ->
  Forall2 (fun r0 r1 => r1 = r0 \/
             (transcode_err env (resolution r0) = None /\
              r1 = written_rendition tok name r0)) d0 (renditions dd) ->
  Forall2 (fun r0 r1 => r1 = r0 \/
             (transcode_err env (resolution r0) = None /\
              r1 = written_rendition tok name r0))
    d0 (renditions (process_renditions env tok name rs dd)).
Proof.
  revert dd. induction rs as [|r rs IH]; intros dd Hrs H; simpl; [exact H|].
  assert (Hrs' : forall x, In x rs -> In x d0) by (intros x Hx; apply Hrs; right; exact Hx).
  destruct (transcode_err env (resolution r)) eqn:Et; [apply IH; auto|].
  destruct (upload_err env (output_key_for tok name (resolution r))); [apply IH; auto|].
  apply IH; [exact Hrs'|].
  assert (Hr : In r d0) by (apply Hrs; left; reflexivity).
  unfold UpdateRenditionOutputKey; cbn [snd renditions].
  assert (Hincl : incl d0 d0) by (intros x Hx; exact Hx).
  revert Hincl H. generalize d0 at 1 3 4 as l0. intros l0 Hincl H.
  induction H as [|r0 r1 l0 l1 Hrel H2 IH2]; simpl; constructor.
  - assert (Hid : rend_id r1 = rend_id r0)
      by (destruct Hrel as [->|[_ ->]]; reflexivity).
    destruct (Nat.eqb (rend_id r1) (rend_id r)) eqn:E; [|exact Hrel].
    apply Nat.eqb_eq in E. rewrite Hid in E.
    assert (Hr0 : In r0 d0) by (apply Hincl; left; reflexivity).
    pose proof (NoDup_map_inj rend_id d0 r0 r Hnd Hr0 Hr E) as ->.
    right. split; [exact Et|].
    destruct Hrel as [->|[_ ->]]; reflexivity.
  - apply IH2. intros x Hx; apply Hincl; right; exact Hx.
Qed.

(** A run of [processJob] changes a rendition row only by writing the
    locator of a rendition whose transcode succeeded. *)
Lemma processJob_with_id_written env now wid tok id d :
  NoDup (map rend_id (renditions d)) ->
  exists name,
  Forall2 (fun r0 r1 => r1 = r0 \/
             (transcode_err env (resolution r0) = None /\
              r1 = written_rendition tok name r0))
    (renditions d) (renditions (fst (processJob_with_id env now wid tok id d))).
Proof.
  intros Hnd.
  set (R := fun name r0 r1 => r1 = r0 \/
             (transcode_err env (resolution r0) = None /\
              r1 = written_rendition tok name r0)).
  assert (Hrefl : forall name l, Forall2 (R name) l l)
    by (intros name l; apply Forall2_refl_rel; intros x; left; reflexivity).
  assert (Hr : renditions (snd (StartJobProcessing d now id wid)) = renditions d)
    by reflexivity.
  unfold processJob_with_id, markJobFailed.
  destruct (StartJobProcessing d now id wid) as [[job|] d1] eqn:Es;
    cbn [snd] in Hr; [|exists ""%string; cbn [fst]; rewrite Hr; apply Hrefl].
  exists (input_name (input_key job)).
  destruct (mkdir_err env); [cbn [fst]; rewrite UpdateJobStatus_renditions, Hr; apply Hrefl|].
  destruct (download_err env (input_key job));
    [cbn [fst]; rewrite UpdateJobStatus_renditions, Hr; apply Hrefl|].
  destruct (list_renditions_err env);
    [cbn [fst]; rewrite UpdateJobStatus_renditions, Hr; apply Hrefl|].
  cbv zeta.
  set (d2 := process_renditions env tok (input_name (input_key job))
               (GetRenditionsByJobID d1 id) d1).
  assert (H2 : Forall2 (R (input_name (input_key job))) (renditions d) (renditions d2)).
  { apply process_renditions_written; [exact Hnd| |rewrite Hr; apply Hrefl].
    intros r Hin. apply GetRenditionsByJobID_In in Hin as [Hin _].
    rewrite Hr in Hin. exact Hin. }
  destruct (UpdateJobStatus d2 id Completed None) as [[?|] d3] eqn:Eu; cbn [fst];
    replace d3 with (snd (UpdateJobStatus d2 id Completed None)) by (rewrite Eu; reflexivity);
    rewrite UpdateJobStatus_renditions; exact H2.
Qed.

Lemma processJob_written env now wid tok d :
  NoDup (map rend_id (renditions d)) ->
  exists name,
  Forall2 (fun r0 r1 => r1 = r0 \/
             (transcode_err env (resolution r0) = None /\
              r1 = written_rendition tok name r0))
    (renditions d) (renditions (fst (processJob env now wid tok d))).
Proof.
  intros Hnd. destruct (processJob_cases env now wid tok d) as [[e ->]|[K ->]];
    [|apply processJob_with_id_written; exact Hnd].
  exists ""%string. cbn [fst]. apply Forall2_refl_rel. intros x; left; reflexivity.
Qed.

(** With the transcoder of the worker behind [transcode_err], a rendition
    whose resolution is not 480p, 720p or 1080p (the API accepts any text)
    is never given an output key: [processJob] leaves its row unchanged. *)
Theorem processJob_unknown_resolution_untouched (env : Env)
  (run : list string -> option (string * string)) (inputPath : string)
  (outputPath : string -> string) (now : Z) (wid tok : string) (d : DB)
  (Henv : forall res, transcode_err env res = Transcode run inputPath (outputPath res) res)
  (Hnd : NoDup (map rend_id (renditions d))) :
  Forall2 (fun r0 r1 => ~ In (resolution r0) ["480p"; "720p"; "1080p"]%string -> r1 = r0)
    (renditions d) (renditions (fst (processJob env now wid tok d))).
Proof.
  destruct (processJob_written env now wid tok d Hnd) as [name H].
  eapply Forall2_impl; [|exact H]. cbv beta.
  intros r0 r1 [->|[Ht _]] Hu; [reflexivity|].
  rewrite Henv, (Transcode_unknown run inputPath (outputPath (resolution r0)) _ Hu) in Ht.
  discriminate.
Qed.

(* ------------------------------------------------------------------ *)
(** ** The storage handlers *)

Lemma string_app_assoc (a b c : string) : ((a ++ b) ++ c = a ++ b ++ c)%string.
Proof. induction a as [|x a IH]; simpl; [reflexivity|]. rewrite IH. reflexivity. Qed.

Lemma existsb_eqb_In (x : string) (l : list string) :
  existsb (String.eqb x) l = true <-> In x l.
Proof.
  rewrite existsb_exists. split.
  - intros (y & Hy & E). apply String.eqb_eq in E. subst; exact Hy.
  - intros H. exists x. split; [exact H|apply String.eqb_refl].
Qed.

Lemma GetUploadURL_ok_iff (filename uploadID : string) (presign : string -> option string)
  (url key : string) :
  GetUploadURL filename uploadID presign = ReplyOK (url, key) <->
  (filename <> ""%string /\ (String.length filename <= maxFilenameLength)%nat /\
   forallb is_safe_char (list_ascii_of_string filename) = true /\
   In (to_lower (go_ext filename)) allowedExtensions /\
   key = ("uploads/" ++ uploadID ++ "/input" ++ to_lower (go_ext filename))%string /\
   presign key = Some url).
Proof.
  unfold GetUploadURL, safe_filename.
  destruct (String.eqb_spec filename "") as [->|Hne].
  { split; [discriminate|intros [H _]; contradiction]. }
  destruct (Nat.ltb_spec maxFilenameLength (String.length filename)) as [Hl|Hl].
  { split; [discriminate|intros (_ & H & _); lia]. }
  cbn [negb andb].
  destruct (forallb is_safe_char (list_ascii_of_string filename)) eqn:Hs;
    cbn [negb]; [|split; [discriminate|intros (_ & _ & H & _); discriminate]].
  set (ext := to_lower (go_ext filename)).
  destruct (String.eqb_spec ext "") as [He|He].
  { split; [discriminate|]. intros (_ & _ & _ & Hin & _). rewrite He in Hin.
    simpl in Hin. intuition discriminate. }
  destruct (existsb (String.eqb ext) allowedExtensions) eqn:Ea; cbn [negb].
  - apply existsb_eqb_In in Ea.
    destruct (presign ("uploads/" ++ uploadID ++ "/input" ++ ext)%string) as [u|] eqn:Ep.
    + split.
      * intros H; injection H as <- <-. repeat split; auto.
      * intros (_ & _ & _ & _ & -> & Hp). rewrite Ep in Hp. injection Hp as ->. reflexivity.
    + split; [discriminate|]. intros (_ & _ & _ & _ & -> & Hp). rewrite Ep in Hp. discriminate.
  - split; [discriminate|]. intros (_ & _ & _ & Hin & _).
    apply existsb_eqb_In in Hin. rewrite Hin in Ea. discriminate.
Qed.

(** [GetUploadURL] answers with a presigned URL exactly when the filename
    is non-empty, at most 255 bytes long, made only of [a-zA-Z0-9._-], and
    its extension, lower-cased, is one of .mp4 .mov .avi .mkv .webm .m4v
    .wmv .flv (and presigning succeeds); the key is then
    "uploads/" ++ uploadID ++ "/input" ++ that lower-cased extension. *)
Theorem GetUploadURL_accepts (filename uploadID : string) (presign : string -> option string)
  (url key : string) :
  GetUploadURL filename uploadID presign = ReplyOK (url, key) <->
  (filename <> ""%string /\ (String.length filename <= 255)%nat /\
   forallb is_safe_char (list_ascii_of_string filename) = true /\
   In (to_lower (go_ext filename))
      [".mp4"; ".mov"; ".avi"; ".mkv"; ".webm"; ".m4v"; ".wmv"; ".flv"]%string /\
   key = ("uploads/" ++ uploadID ++ "/input" ++ to_lower (go_ext filename))%string /\
   presign key = Some url).
Proof. exact (GetUploadURL_ok_iff filename uploadID presign url key). Qed.

Lemma input_name_upload_key (uploadID e : string) :
  forallb (fun c => negb (is_slash c || is_dot c)) (list_ascii_of_string e) = true ->
  input_name ("uploads/" ++ uploadID ++ "/input" ++ String "."%char e) = "input"%string.
Proof.
  intros He.
  replace ("uploads/" ++ uploadID ++ "/input" ++ String "."%char e)%string
    with (("uploads/" ++ uploadID) ++ "/" ++ "input" ++ "." ++ e)%string
    by (rewrite string_app_assoc; reflexivity).
  apply input_name_dir_name_ext; [reflexivity|exact He].
Qed.

(** An upload key handed out by [GetUploadURL] always has the input name
    "input" for the worker, whatever the uploaded file was called, so the
    outputs of that job are "outputs/" ++ job id ++ "/input_" ++
    resolution ++ ".mp4". *)
Theorem GetUploadURL_worker_input_name (filename uploadID : string)
  (presign : string -> option string) (url key : string) :
  GetUploadURL filename uploadID presign = ReplyOK (url, key) ->
  input_name key = "input"%string /\
  (forall tok res, output_key_for tok (input_name key) res =
                   ("outputs/" ++ tok ++ "/input_" ++ res ++ ".mp4")%string).
Proof.
  intros H. apply GetUploadURL_ok_iff in H as (_ & _ & _ & Hin & -> & _).
  assert (Hn : input_name ("uploads/" ++ uploadID ++ "/input" ++ to_lower (go_ext filename))%string
               = "input"%string).
  { unfold allowedExtensions in Hin.
    destruct Hin as [E|[E|[E|[E|[E|[E|[E|[E|[]]]]]]]]]; rewrite <- E;
      apply input_name_upload_key; reflexivity. }
  split; [exact Hn|]. intros tok res. rewrite Hn. reflexivity.
Qed.

Lemma GetDownloadURL_ok_iff (key : string) (presign : string -> option string) (url : string) :
  GetDownloadURL key presign = ReplyOK url <->
  (key <> ""%string /\ contains_dotdot key = false /\
   String.prefix "outputs/" key = true /\ (String.length key <= 500)%nat /\
   presign key = Some url).
Proof.
  unfold GetDownloadURL.
  destruct (String.eqb_spec key "") as [->|Hne].
  { split; [discriminate|intros [H _]; contradiction]. }
  destruct (contains_dotdot key); [split; [discriminate|intros (_ & H & _); discriminate]|].
  destruct (String.prefix "outputs/" key); cbn [negb];
    [|split; [discriminate|intros (_ & _ & H & _); discriminate]].
  destruct (Nat.ltb_spec 500 (String.length key)) as [Hl|Hl].
  { split; [discriminate|intros (_ & _ & _ & H & _); lia]. }
  destruct (presign key) as [u|] eqn:Ep.
  - split; [intros H; injection H as <-; repeat split; auto|].
    intros (_ & _ & _ & _ & Hp). injection Hp as ->. reflexivity.
  - split; [discriminate|intros (_ & _ & _ & _ & Hp); discriminate].
Qed.

(** [GetDownloadURL] answers with a presigned URL exactly when the key is
    non-empty, does not contain "..", starts with "outputs/" and is at most
    500 bytes long (and presigning succeeds); a non-empty key containing
    ".." is refused with 400 "invalid key" before the prefix is looked at. *)
Theorem GetDownloadURL_accepts (key : string) (presign : string -> option string) (url : string) :
  (GetDownloadURL key presign = ReplyOK url <->
   (key <> ""%string /\ contains_dotdot key = false /\
    String.prefix "outputs/" key = true /\ (String.length key <= 500)%nat /\
    presign key = Some url)) /\
  (key <> ""%string -> contains_dotdot key = true ->
   GetDownloadURL key presign = ReplyError 400 "invalid key").
Proof.
  split; [apply GetDownloadURL_ok_iff|].
  intros Hne Hd. unfold GetDownloadURL.
  destruct (String.eqb_spec key "") as [E|_]; [contradiction|]. rewrite Hd. reflexivity.
Qed.

Lemma contains_dotdot_cons (c : ascii) (s : string) :
  Ascii.eqb c "."%char = false -> contains_dotdot (String c s) = contains_dotdot s.
Proof. intros H. destruct s as [|b s]; simpl; [reflexivity|]. rewrite H. reflexivity. Qed.

Lemma contains_dotdot_sep (a b : string) (c : ascii) :
  Ascii.eqb c "."%char = false ->
  contains_dotdot (a ++ String c b) = contains_dotdot a || contains_dotdot b.
Proof.
  intros Hc. induction a as [|x a IH].
  - simpl append. rewrite contains_dotdot_cons by exact Hc. reflexivity.
  - destruct a as [|y a].
    + cbn [append].
      change (contains_dotdot (String x (String c b))) with
        ((Ascii.eqb x "."%char && Ascii.eqb c "."%char) || contains_dotdot (String c b)).
      rewrite Hc, andb_false_r, contains_dotdot_cons by exact Hc. reflexivity.
    + cbn [append].
      change (contains_dotdot (String x (String y (a ++ String c b)))) with
        ((Ascii.eqb x "."%char && Ascii.eqb y "."%char) ||
         contains_dotdot (String y a ++ String c b)).
      rewrite IH. simpl. rewrite orb_assoc. reflexivity.
Qed.

Lemma contains_dotdot_dot_suffix (a b : string) :
  (forall a', a <> (a' ++ ".")%string) ->
  contains_dotdot (a ++ String "."%char b) =
  contains_dotdot a || contains_dotdot (String "."%char b).
Proof.
  induction a as [|x a IH]; intros Ha; [reflexivity|].
  destruct a as [|y a].
  - assert (Hx : Ascii.eqb x "."%char = false).
    { destruct (Ascii.eqb_spec x "."%char) as [->|]; [|reflexivity].
      exfalso; apply (Ha ""%string); reflexivity. }
    simpl append. change (contains_dotdot (String x (String "."%char b))) with
      ((Ascii.eqb x "."%char && Ascii.eqb "."%char "."%char) ||
       contains_dotdot (String "."%char b)).
    rewrite Hx. reflexivity.
  - cbn [append].
    change (contains_dotdot (String x (String y (a ++ String "."%char b)))) with
      ((Ascii.eqb x "."%char && Ascii.eqb y "."%char) ||
       contains_dotdot (String y a ++ String "."%char b)).
    rewrite IH.
    + simpl. rewrite orb_assoc. reflexivity.
    + intros a' E. apply (Ha (String x a')). rewrite E. reflexivity.
Qed.

(** Every output key the worker writes is downloadable through
    [GetDownloadURL] when the job id, input name and resolution contain no
    "..", the resolution does not end in '.', and the key is at most 500
    bytes. *)
Theorem GetDownloadURL_worker_output_key (tok name res : string)
  (presign : string -> option string) (url : string) :
  contains_dotdot tok = false -> contains_dotdot name = false ->
  contains_dotdot res = false -> (forall r', res <> (r' ++ ".")%string) ->
  (String.length (output_key_for tok name res) <= 500)%nat ->
  presign (output_key_for tok name res) = Some url ->
  GetDownloadURL (output_key_for tok name res) presign = ReplyOK url.
Proof.
  intros Ht Hn Hr Hend Hl Hp. apply GetDownloadURL_ok_iff.
  split; [unfold output_key_for; simpl; discriminate|].
  split; [|split; [unfold output_key_for; simpl; destruct tok; reflexivity|split; assumption]].
  unfold output_key_for. cbn [append].
  rewrite !contains_dotdot_cons by reflexivity.
  rewrite contains_dotdot_sep by reflexivity.
  rewrite contains_dotdot_sep by reflexivity.
  rewrite contains_dotdot_dot_suffix by exact Hend.
  rewrite Ht, Hn, Hr. reflexivity.
Qed.

(** [config.Load] succeeds exactly when DATABASE_URL is set to a
    non-empty value (set but empty fails as unset does), and then
    S3UsePathStyle is on exactly when S3_USE_PATH_STYLE is unset or is
    exactly "true" (any other value, "TRUE" or "1" included, turns it off). *)
Theorem Load_config (env : list (string * string)) :
  ((exists c, Load env = inl c) <->
   (exists v, assoc_lookup "DATABASE_URL" env = Some v /\ v <> ""%string)) /\
  (forall c, Load env = inl c ->
   (S3UsePathStyle c = true <->
    assoc_lookup "S3_USE_PATH_STYLE" env = None \/
    assoc_lookup "S3_USE_PATH_STYLE" env = Some "true"%string)).
Proof.
  unfold Load, getEnv. cbn [DatabaseURL]. split.
  - destruct (assoc_lookup "DATABASE_URL" env) as [v|].
    + destruct (String.eqb_spec v "") as [->|Hne].
      * split; [intros [c Hc]; discriminate|intros (v & Hv & Hne); injection Hv as <-; contradiction].
      * split; [intros _; exists v; split; [reflexivity|exact Hne]|intros _; eexists; reflexivity].
    + split; [intros [c Hc]; discriminate|intros (v & Hv & _); discriminate].
  - intros c Hc. destruct (String.eqb _ "") in Hc; [discriminate|].
    injection Hc as <-. cbn [S3UsePathStyle].
    destruct (assoc_lookup "S3_USE_PATH_STYLE" env) as [v|].
    + destruct (String.eqb_spec v "true") as [->|Hne].
      * split; [intros _; right; reflexivity|reflexivity].
      * split; [discriminate|intros [H|H]; [discriminate|injection H as ->; contradiction]].
    + split; [intros _; left; reflexivity|reflexivity].
Qed.

Module RedisLockFacts.
Import RedisLock.

Lemma assoc_lookup_del {A} (k k' : string) (s : list (string * A)) :
  assoc_lookup k (filter (fun e => negb (String.eqb (fst e) k')) s) =
  if String.eqb k' k then None else assoc_lookup k s.
Proof.
  induction s as [|[k0 v0] s IH]; simpl.
  - destruct (String.eqb k' k); reflexivity.
  - destruct (String.eqb_spec k0 k') as [->|Hne]; simpl.
    + rewrite IH. destruct (String.eqb k' k); reflexivity.
    + destruct (String.eqb_spec k0 k) as [->|Hne2].
      * destruct (String.eqb_spec k' k) as [->|]; [contradiction|reflexivity].
      * exact IH.
Qed.

Lemma get_del (t : Z) (k k' : string) (s : store) :
  get t k (del k' s) = if String.eqb k' k then None else get t k s.
Proof.
  unfold get, del. rewrite assoc_lookup_del. destruct (String.eqb k' k); reflexivity.
Qed.

Lemma get_set (t : Z) (k k' v : string) (e : Z) (s : store) :
  get t k (set k' v e s) =
  if String.eqb k' k then (if t <? e then Some v else None) else get t k s.
Proof.
  unfold set. unfold get at 1. cbn [assoc_lookup].
  destruct (String.eqb_spec k' k) as [->|Hne]; [reflexivity|].
  fold (get t k (del k' s)). rewrite get_del.
  destruct (String.eqb_spec k' k); [contradiction|reflexivity].
Qed.

Lemma lock_key_inj (j j' : string) :
  String.eqb (LockKeyPrefix ++ j) (LockKeyPrefix ++ j') = String.eqb j j'.
Proof.
  destruct (String.eqb_spec j j') as [->|Hne]; [apply String.eqb_refl|].
  apply String.eqb_neq. unfold LockKeyPrefix. simpl. intros H.
  repeat (injection H as H); contradiction.
Qed.

Lemma extend_at_other (w j j' : string) (ticks : list Z) (s : store) (t : Z) :
  j <> j' ->
  get t (LockKeyPrefix ++ j') (extend_at w j ticks s) = get t (LockKeyPrefix ++ j') s.
Proof.
  intros Hne. revert s. induction ticks as [|x ts IH]; intros s; [reflexivity|].
  cbn [extend_at]. rewrite IH. unfold ExtendLock.
  destruct (get x (LockKeyPrefix ++ j) s) as [v|]; [|reflexivity].
  destruct (String.eqb v w); [|reflexivity]. cbn [snd].
  rewrite get_set, lock_key_inj. apply String.eqb_neq in Hne. rewrite Hne. reflexivity.
Qed.

End RedisLockFacts.

Lemma lock_held_through (w j : string) (ticks : list Z) (prev : Z) (s : RedisLock.store) :
  RedisLock.ticks_within prev ticks = true ->
  (forall t, prev <= t < prev + RedisLock.DefaultLockTTL ->
     RedisLock.get t (RedisLock.LockKeyPrefix ++ j) s = Some w) ->
  forall t, RedisLock.last_tick prev ticks <= t <
            RedisLock.last_tick prev ticks + RedisLock.DefaultLockTTL ->
  RedisLock.get t (RedisLock.LockKeyPrefix ++ j) (RedisLock.extend_at w j ticks s) = Some w.
Proof.
  revert prev s. induction ticks as [|x ts IH]; intros prev s Hw Hheld; [exact Hheld|].
  cbn [RedisLock.ticks_within] in Hw.
  apply andb_prop in Hw as [Hx Hw]. apply andb_prop in Hx as [H1 H2].
  apply Z.leb_le in H1. apply Z.ltb_lt in H2.
  cbn [RedisLock.last_tick RedisLock.extend_at]. apply IH; [exact Hw|].
  intros t Ht. unfold RedisLock.ExtendLock.
  rewrite (Hheld x) by lia. rewrite String.eqb_refl. cbn [snd].
  rewrite RedisLockFacts.get_set, String.eqb_refl.
  destruct (Z.ltb_spec t (x + RedisLock.DefaultLockTTL)); [reflexivity|lia].
Qed.

Lemma Lock_true_inv (w : string) (now : Z) (j : string) (s s' : RedisLock.store) :
  RedisLock.Lock w now j s = (true, s') ->
  RedisLock.get now (RedisLock.LockKeyPrefix ++ j) s = None /\
  s' = RedisLock.set (RedisLock.LockKeyPrefix ++ j) w (now + RedisLock.DefaultLockTTL) s.
Proof.
  unfold RedisLock.Lock. cbv zeta.
  destruct (RedisLock.get now (RedisLock.LockKeyPrefix ++ j) s); [discriminate|].
  intros H. injection H as <-. split; reflexivity.
Qed.

(** [Lock] succeeds exactly when no live lock is on the job's key; after a
    successful [Lock] at time [now] the caller holds the key until
    [now + DefaultLockTTL] and every other [Lock] on the job fails in that
    window, the key has expired from then on, and the locks of other jobs
    are untouched. *)
Theorem Lock_mutual_exclusion (w : string) (now : Z) (j : string) (s : RedisLock.store) :
  (fst (RedisLock.Lock w now j s) = true <->
   RedisLock.get now (RedisLock.LockKeyPrefix ++ j) s = None) /\
  (forall s', RedisLock.Lock w now j s = (true, s') ->
   (forall t, now <= t < now + RedisLock.DefaultLockTTL ->
      RedisLock.get t (RedisLock.LockKeyPrefix ++ j) s' = Some w /\
      (forall w', fst (RedisLock.Lock w' t j s') = false)) /\
   (forall t, now + RedisLock.DefaultLockTTL <= t ->
      RedisLock.get t (RedisLock.LockKeyPrefix ++ j) s' = None) /\
   (forall j' t, j' <> j ->
      RedisLock.get t (RedisLock.LockKeyPrefix ++ j') s' =
      RedisLock.get t (RedisLock.LockKeyPrefix ++ j') s)).
Proof.
  split.
  - unfold RedisLock.Lock. destruct (RedisLock.get now _ s); cbn [fst]; split; congruence.
  - intros s' Hs. apply Lock_true_inv in Hs as [_ ->]. split; [|split].
    + intros t Ht. rewrite RedisLockFacts.get_set, String.eqb_refl.
      destruct (Z.ltb_spec t (now + RedisLock.DefaultLockTTL)); [|lia].
      split; [reflexivity|]. intros w'. unfold RedisLock.Lock. cbv zeta.
      rewrite RedisLockFacts.get_set, String.eqb_refl.
      destruct (Z.ltb_spec t (now + RedisLock.DefaultLockTTL)); [reflexivity|lia].
    + intros t Ht. rewrite RedisLockFacts.get_set, String.eqb_refl.
      destruct (Z.ltb_spec t (now + RedisLock.DefaultLockTTL)); [lia|reflexivity].
    + intros j' t Hne. rewrite RedisLockFacts.get_set, RedisLockFacts.lock_key_inj.
      apply not_eq_sym, String.eqb_neq in Hne. rewrite Hne. reflexivity.
Qed.

(** [Unlock] by a worker that does not hold the live lock changes nothing
    (another worker's lock survives); by the holder it frees the key at
    every later time; the locks of other jobs are untouched. *)
Theorem Unlock_owner_only (w : string) (now : Z) (j : string) (s : RedisLock.store) :
  (RedisLock.get now (RedisLock.LockKeyPrefix ++ j) s <> Some w ->
   RedisLock.Unlock w now j s = s) /\
  (RedisLock.get now (RedisLock.LockKeyPrefix ++ j) s = Some w ->
   forall t, RedisLock.get t (RedisLock.LockKeyPrefix ++ j) (RedisLock.Unlock w now j s) = None) /\
  (forall j' t, j' <> j ->
   RedisLock.get t (RedisLock.LockKeyPrefix ++ j') (RedisLock.Unlock w now j s) =
   RedisLock.get t (RedisLock.LockKeyPrefix ++ j') s).
Proof.
  unfold RedisLock.Unlock. split; [|split].
  - intros H. destruct (RedisLock.get now _ s) as [v|]; [|reflexivity].
    destruct (String.eqb_spec v w) as [->|]; [contradiction|reflexivity].
  - intros H t. rewrite H, String.eqb_refl, RedisLockFacts.get_del, String.eqb_refl. reflexivity.
  - intros j' t Hne. destruct (RedisLock.get now _ s) as [v|]; [|reflexivity].
    destruct (String.eqb v w); [|reflexivity].
    rewrite RedisLockFacts.get_del, RedisLockFacts.lock_key_inj.
    apply not_eq_sym, String.eqb_neq in Hne. rewrite Hne. reflexivity.
Qed.

(** [ExtendLock] succeeds exactly when the caller holds the live lock; it
    then keeps the caller as holder for [ttl] from [now], and otherwise it
    changes nothing (an expired lock is not revived). *)
Theorem ExtendLock_owner (w : string) (now : Z) (j : string) (ttl : Z) (s : RedisLock.store) :
  (fst (RedisLock.ExtendLock w now j ttl s) = None <->
   RedisLock.get now (RedisLock.LockKeyPrefix ++ j) s = Some w) /\
  (RedisLock.get now (RedisLock.LockKeyPrefix ++ j) s <> Some w ->
   snd (RedisLock.ExtendLock w now j ttl s) = s) /\
  (RedisLock.get now (RedisLock.LockKeyPrefix ++ j) s = Some w ->
   forall t, now <= t < now + ttl ->
   RedisLock.get t (RedisLock.LockKeyPrefix ++ j) (snd (RedisLock.ExtendLock w now j ttl s)) = Some w).
Proof.
  unfold RedisLock.ExtendLock. split; [|split].
  - destruct (RedisLock.get now _ s) as [v|]; [|cbn [fst]; split; discriminate].
    destruct (String.eqb_spec v w) as [->|Hne]; cbn [fst]; split; congruence.
  - intros H. destruct (RedisLock.get now _ s) as [v|]; [|reflexivity].
    destruct (String.eqb_spec v w) as [->|]; [contradiction|reflexivity].
  - intros H t Ht. rewrite H, String.eqb_refl. cbn [snd].
    rewrite RedisLockFacts.get_set, String.eqb_refl.
    destruct (Z.ltb_spec t (now + ttl)); [reflexivity|lia].
Qed.

(** The renewal loop of [processJobWithLock] keeps the lock: after a
    successful [Lock] at [t0], renewals at ticks that leave less than
    [DefaultLockTTL] between each other (and after [t0]) keep the worker
    the holder up to [DefaultLockTTL] after the last tick, whatever happens
    to other jobs' keys. *)
Theorem Lock_keepalive (w : string) (t0 : Z) (j : string) (ticks : list Z)
  (s s1 : RedisLock.store) :
  RedisLock.Lock w t0 j s = (true, s1) ->
  RedisLock.ticks_within t0 ticks = true ->
  forall t, RedisLock.last_tick t0 ticks <= t <
            RedisLock.last_tick t0 ticks + RedisLock.DefaultLockTTL ->
  RedisLock.get t (RedisLock.LockKeyPrefix ++ j) (RedisLock.extend_at w j ticks s1) = Some w.
Proof.
  intros Hl Hw. apply lock_held_through; [exact Hw|].
  unfold RedisLock.Lock in Hl. destruct (RedisLock.get t0 _ s); [discriminate|].
  injection Hl as <-. intros t Ht.
  rewrite RedisLockFacts.get_set, String.eqb_refl.
  destruct (Z.ltb_spec t (t0 + RedisLock.DefaultLockTTL)); [reflexivity|lia].
Qed.

(** [GetStaleJobs] returns at most 100 rows; each is a row of the table in
    status processing whose start is more than ten minutes old, and so a
    row [StartJobProcessing] would let any worker take over; when at most
    100 rows are stale, all of them are returned. *)
Theorem GetStaleJobs_rows (db : DB) (now : Z) :
  (length (GetStaleJobs db now) <= 100)%nat /\
  (forall j, In j (GetStaleJobs db now) ->
     In j (jobs db) /\ status j = Processing /\
     (exists t, started_at j = Some t /\ t < now - stall_horizon) /\
     claimable now (job_id j) j = true) /\
  ((length (filter (stale now) (jobs db)) <= 100)%nat ->
   GetStaleJobs db now = filter (stale now) (jobs db)).
Proof.
  unfold GetStaleJobs. split; [|split].
  - apply firstn_le_length.
  - intros j Hj.
    assert (Hj' : In j (filter (stale now) (jobs db))).
    { rewrite <- (firstn_skipn 100 (filter (stale now) (jobs db))). apply in_or_app. left; exact Hj. }
    apply filter_In in Hj' as [Hin Hs].
    unfold stale in Hs. apply andb_prop in Hs as [Hp Ht].
    assert (Hst : status j = Processing) by (destruct (status j); first [reflexivity|discriminate]).
    split; [exact Hin|split; [exact Hst|split]].
    + destruct (started_at j) as [t|]; [|discriminate].
      exists t; split; [reflexivity|apply Z.ltb_lt; exact Ht].
    + unfold claimable. rewrite String.eqb_refl, Hp, Ht, orb_true_r. reflexivity.
  - intros Hl. apply firstn_all2. exact Hl.
Qed.

(** [ResetStalledJob] on a row in status processing puts it back to queued
    with no worker and no start time, keeping its input, error message and
    retry counters, and returns it; such a row can then be claimed at any
    time. On a row in any other status, or with no row of that id, it
    returns nothing and changes nothing. Other rows are untouched. *)
Theorem ResetStalledJob_requeues (db : DB) (id : string)
  (Hnd : NoDup (map job_id (jobs db))) :
  (forall j, GetJob db id = Some j -> status j = Processing ->
   let j' := mkJob id (input_key j) Queued (error_message j)
                   (retry_count j) (max_retries j) None None in
   fst (ResetStalledJob db id) = Some j' /\
   GetJob (snd (ResetStalledJob db id)) id = Some j' /\
   (forall now, claimable now id j' = true)) /\
  (forall j, GetJob db id = Some j -> status j <> Processing ->
   ResetStalledJob db id = (None, db)) /\
  (GetJob db id = None -> ResetStalledJob db id = (None, db)) /\
  (forall id', id' <> id -> GetJob (snd (ResetStalledJob db id)) id' = GetJob db id').
Proof.
  set (p := fun j => String.eqb (job_id j) id && job_status_eqb (status j) Processing).
  set (f := fun j => mkJob (job_id j) (input_key j) Queued (error_message j)
                    (retry_count j) (max_retries j) None None).
  assert (Hp : forall x, p x = true -> job_id x = id).
  { intros x Hx. unfold p in Hx. apply andb_prop in Hx as [Hx _]. apply String.eqb_eq; exact Hx. }
  assert (Hf : forall x, job_id (f x) = job_id x) by reflexivity.
  assert (Hnone : find p (jobs db) = None -> ResetStalledJob db id = (None, db)).
  { intros Hn.
    assert (H1 : fst (update_jobs p f db) = None) by (unfold update_jobs; rewrite Hn; reflexivity).
    pose proof (update_jobs_none p f db H1) as H2.
    unfold ResetStalledJob. fold p f. destruct (update_jobs p f db) as [a b].
    cbn [fst snd] in H1, H2. subst. reflexivity. }
  split; [|split; [|split]].
  - intros j Hj Hs j'.
    assert (Hpj : p j = true).
    { unfold p. rewrite (GetJob_id db id j Hj), String.eqb_refl, Hs. reflexivity. }
    assert (Hid : job_id j = id) by exact (GetJob_id db id j Hj).
    assert (Hfj : f j = j') by (unfold f, j'; rewrite Hid; reflexivity).
    split; [|split].
    + unfold ResetStalledJob. fold p f. unfold update_jobs. cbn [fst].
      rewrite (find_first_selected p db id j Hp Hj Hpj). cbn [option_map]. rewrite Hfj. reflexivity.
    + unfold ResetStalledJob. fold p f. rewrite <- Hfj.
      exact (GetJob_update_first p f db id j Hp Hf Hj Hpj).
    + intros now. unfold claimable, j'. cbn [job_id status]. rewrite String.eqb_refl. reflexivity.
  - intros j Hj Hs. apply Hnone, find_none_intro. intros x Hin.
    destruct (p x) eqn:Ex; [|reflexivity]. exfalso.
    pose proof (GetJob_unique db id j x Hnd Hj Hin (Hp x Ex)) as ->.
    unfold p in Ex. apply andb_prop in Ex as [_ Ex].
    apply Hs. destruct (status j); first [reflexivity|discriminate].
  - intros Hn. apply Hnone, find_none_intro. intros x Hin.
    destruct (p x) eqn:Ex; [|reflexivity]. exfalso.
    apply (GetJob_none_notin db id Hn). rewrite <- (Hp x Ex). apply in_map; exact Hin.
  - intros id' Hne. unfold ResetStalledJob. fold p f.
    apply (GetJob_update_other p f db id id'); [exact Hp|intros E; apply Hne; symmetry; exact E|exact Hf].
Qed.

Lemma handleJobFailure_queues (now : Z) (id e : string) (w : World) :
  pending (handleJobFailure now id e w) = pending w /\
  locks (handleJobFailure now id e w) = locks w.
Proof.
  unfold handleJobFailure. destruct (GetJob (db w) id) as [job|]; [|split; reflexivity].
  destruct (max_retries job <=? retry_count job); [split; reflexivity|].
  destruct (IncrementRetryCount (db w) id) as [[r|] d']; [|split; reflexivity].
  destruct (retry_delay (retry_count job)); split; reflexivity.
Qed.

Lemma pop_right_snoc (rest : list string) (x : string) :
  pop_right (rest ++ [x]) = Some (x, rest).
Proof. unfold pop_right. rewrite rev_app_distr. cbn. rewrite rev_involutive. reflexivity. Qed.

Lemma filter_unlock_free (id wid : string) (l : list (string * string)) :
  existsb (fun p => String.eqb (fst p) id) l = false ->
  filter (fun p => negb (String.eqb (fst p) id && String.eqb (snd p) wid)) l = l.
Proof.
  induction l as [|[a b] l IH]; [reflexivity|]. cbn. intros H.
  apply orb_false_elim in H as [H1 H2]. rewrite H1, IH by exact H2. reflexivity.
Qed.

Lemma processJob_missing (env : Env) (now : Z) (wid tok id : string) (d : DB) :
  GetJob d id = None -> exists e, processJob_with_id env now wid tok id d = (d, Some e).
Proof.
  intros Hn.
  assert (Hf : find (claimable now id) (jobs d) = None).
  { apply find_none_intro. intros x Hin. destruct (claimable now id x) eqn:E; [|reflexivity].
    exfalso. apply (GetJob_none_notin d id Hn). rewrite <- (claimable_id now id x E).
    apply in_map; exact Hin. }
  unfold processJob_with_id, StartJobProcessing, update_jobs. rewrite Hf. cbn [option_map].
  eexists. f_equal. destruct d as [js rs n]. cbn [jobs renditions next_rend_id] in *. f_equal.
  clear Hn. induction js as [|x js IH]; [reflexivity|].
  cbn in Hf |- *. destruct (claimable now id x); [discriminate|]. rewrite IH by exact Hf. reflexivity.
Qed.

(** A worker iteration consumes the popped token: the oldest token leaves
    the pending queue and nothing is put back there, and the job's lock
    key is released so the lock table ends as it was. A token whose job is
    locked, or a canonical token whose job has no row, is dropped with no other effect (no
    retry is scheduled, nothing goes to the dead-letter queue). *)
Theorem worker_step_consumes_token (env : Env) (now : Z) (wid : string) (w : World)
  (rest : list string) (jobID : string) (Hp : pending w = rest ++ [jobID]) :
  pending (worker_step env now wid w) = rest /\
  locks (worker_step env now wid w) = locks w /\
  (existsb (fun l => String.eqb (fst l) jobID) (locks w) = true ->
   worker_step env now wid w = mkWorld (db w) rest (dead w) (scheduled w) (locks w)) /\
  (canonical_token jobID = true -> GetJob (db w) jobID = None ->
   worker_step env now wid w = mkWorld (db w) rest (dead w) (scheduled w) (locks w)).
Proof.
  unfold worker_step. rewrite Hp, pop_right_snoc.
  unfold worker_iteration, Lock. cbn [db pending dead scheduled locks].
  destruct (existsb (fun l => String.eqb (fst l) jobID) (locks w)) eqn:El.
  { cbn [negb]. split; [reflexivity|split; [reflexivity|split; [intros _|intros _ _]; reflexivity]]. }
  cbn [negb db pending dead scheduled locks]. split; [|split; [|split]].
  - destruct (processJob env now wid jobID (db w)) as [d2 [e|]];
      unfold Unlock; cbn [pending]; [|reflexivity].
    apply handleJobFailure_queues.
  - destruct (processJob env now wid jobID (db w)) as [d2 [e|]];
      unfold Unlock; cbn [locks].
    + rewrite (proj2 (handleJobFailure_queues _ _ _ _)). unfold set_db. cbn [locks].
      cbn [filter fst snd]. rewrite !String.eqb_refl. cbn [andb negb].
      apply filter_unlock_free; exact El.
    + unfold set_db. cbn [locks filter fst snd]. rewrite !String.eqb_refl. cbn [andb negb].
      apply filter_unlock_free; exact El.
  - discriminate.
  - intros Hcan Hn. rewrite (processJob_canonical env now wid jobID (db w) Hcan).
    destruct (processJob_missing env now wid jobID jobID (db w) Hn) as [e ->].
    unfold handleJobFailure, set_db. cbn [db]. rewrite Hn.
    unfold Unlock. cbn [db pending dead scheduled locks].
    cbn [filter fst snd]. rewrite !String.eqb_refl. cbn [andb negb].
    rewrite filter_unlock_free by exact El. reflexivity.
Qed.

Lemma UpdateRenditionOutputKey_keys (d : DB) (rid : nat) (key : string) :
  map rend_key (renditions (snd (UpdateRenditionOutputKey d rid key))) = map rend_key (renditions d) /\
  next_rend_id (snd (UpdateRenditionOutputKey d rid key)) = next_rend_id d.
Proof.
  unfold UpdateRenditionOutputKey. cbn [snd renditions next_rend_id]. split; [|reflexivity].
  rewrite map_map. apply map_ext. intros r. destruct (Nat.eqb (rend_id r) rid); reflexivity.
Qed.

Lemma process_renditions_keys (env : Env) (tok name : string) (rs : list Rendition) (d : DB) :
  map rend_key (renditions (process_renditions env tok name rs d)) = map rend_key (renditions d) /\
  next_rend_id (process_renditions env tok name rs d) = next_rend_id d.
Proof.
  revert d. induction rs as [|r rs IH]; intros d; cbn [process_renditions]; [split; reflexivity|].
  destruct (transcode_err env (resolution r)); [apply IH|].
  destruct (upload_err env (output_key_for tok name (resolution r))); [apply IH|].
  destruct (IH (snd (UpdateRenditionOutputKey d (rend_id r) (output_key_for tok name (resolution r)))))
    as [H1 H2].
  destruct (UpdateRenditionOutputKey_keys d (rend_id r) (output_key_for tok name (resolution r)))
    as [H3 H4].
  split; congruence.
Qed.

Lemma processJob_with_id_keys (env : Env) (now : Z) (wid tok id : string) (d : DB) :
  map rend_key (renditions (fst (processJob_with_id env now wid tok id d))) = map rend_key (renditions d) /\
  next_rend_id (fst (processJob_with_id env now wid tok id d)) = next_rend_id d.
Proof.
  unfold processJob_with_id.
  assert (Hs : renditions (snd (StartJobProcessing d now id wid)) = renditions d /\
               next_rend_id (snd (StartJobProcessing d now id wid)) = next_rend_id d)
    by (split; reflexivity).
  destruct (StartJobProcessing d now id wid) as [[job|] d1]; cbn [snd] in Hs;
    destruct Hs as [Hs1 Hs2]; [|cbn [fst]; rewrite Hs1, Hs2; split; reflexivity].
  destruct (mkdir_err env); [cbn; rewrite Hs1, Hs2; split; reflexivity|].
  destruct (download_err env (input_key job)); [cbn; rewrite Hs1, Hs2; split; reflexivity|].
  destruct (list_renditions_err env); [cbn; rewrite Hs1, Hs2; split; reflexivity|].
  destruct (process_renditions_keys env tok (input_name (input_key job))
              (GetRenditionsByJobID d1 id) d1) as [H1 H2].
  assert (Hu : forall d2, renditions (snd (UpdateJobStatus d2 id Completed None)) = renditions d2 /\
               next_rend_id (snd (UpdateJobStatus d2 id Completed None)) = next_rend_id d2)
    by (intros; split; reflexivity).
  destruct (Hu (process_renditions env tok (input_name (input_key job))
                  (GetRenditionsByJobID d1 id) d1)) as [Hu1 Hu2].
  destruct (UpdateJobStatus _ id Completed None) as [[x|] d3]; cbn [fst snd] in *;
    split; congruence.
Qed.

Lemma processJob_keys (env : Env) (now : Z) (wid tok : string) (d : DB) :
  map rend_key (renditions (fst (processJob env now wid tok d))) = map rend_key (renditions d) /\
  next_rend_id (fst (processJob env now wid tok d)) = next_rend_id d.
Proof.
  destruct (processJob_cases env now wid tok d) as [[e ->]|[K ->]];
    [split; reflexivity | apply processJob_with_id_keys].
Qed.

Lemma handleJobFailure_renditions (now : Z) (id e : string) (w : World) :
  renditions (db (handleJobFailure now id e w)) = renditions (db w) /\
  next_rend_id (db (handleJobFailure now id e w)) = next_rend_id (db w).
Proof.
  unfold handleJobFailure. destruct (GetJob (db w) id) as [job|]; [|split; reflexivity].
  destruct (max_retries job <=? retry_count job); [split; reflexivity|].
  assert (Hi : renditions (snd (IncrementRetryCount (db w) id)) = renditions (db w) /\
               next_rend_id (snd (IncrementRetryCount (db w) id)) = next_rend_id (db w))
    by (split; reflexivity).
  destruct (IncrementRetryCount (db w) id) as [[r|] d']; cbn [snd] in Hi; [|split; reflexivity].
  destruct (retry_delay (retry_count job)); exact Hi.
Qed.

Lemma worker_step_keys (env : Env) (now : Z) (wid : string) (w : World) :
  map rend_key (renditions (db (worker_step env now wid w))) = map rend_key (renditions (db w)) /\
  next_rend_id (db (worker_step env now wid w)) = next_rend_id (db w).
Proof.
  unfold worker_step. destruct (pop_right (pending w)) as [[jobID rest]|]; [|split; reflexivity].
  unfold worker_iteration, Lock. cbn [db locks].
  destruct (existsb _ _); [split; reflexivity|]. cbn [negb db].
  pose proof (processJob_keys env now wid jobID (db w)) as [H1 H2].
  destruct (processJob env now wid jobID (db w)) as [d2 [e|]]; cbn [fst] in H1, H2.
  - unfold Unlock. cbn [db].
    match goal with
    | |- context [handleJobFailure now jobID e ?w2] =>
        destruct (handleJobFailure_renditions now jobID e w2) as [H3 H4]; rewrite H3, H4
    end.
    unfold set_db. cbn [db]. split; assumption.
  - unfold Unlock, set_db. cbn [db]. split; assumption.
Qed.

Lemma rend_inv_keys (d d' : DB) :
  map rend_key (renditions d') = map rend_key (renditions d) ->
  next_rend_id d' = next_rend_id d -> rend_inv d -> rend_inv d'.
Proof.
  intros Hk Hn [H1 [H2 H3]].
  assert (E1 : forall l, map rend_id l = map (fun k => fst (fst k)) (map rend_key l))
    by (intros l; rewrite map_map; reflexivity).
  assert (E2 : forall l, map (fun r => (rend_job_id r, resolution r)) l =
                         map (fun k => (snd (fst k), snd k)) (map rend_key l))
    by (intros l; rewrite map_map; reflexivity).
  split; [|split].
  - rewrite Hn. apply Forall_map with (f := rend_key) (P := fun k => (fst (fst k) < next_rend_id d)%nat).
    rewrite Hk. apply Forall_map. exact H1.
  - rewrite E1, Hk, <- E1. exact H2.
  - rewrite E2, Hk, <- E2. exact H3.
Qed.

Lemma CreateRendition_inv (err : option string) (d : DB) (jid res : string) :
  rend_inv d -> rend_inv (snd (CreateRendition err d jid res)).
Proof.
  intros [H1 [H2 H3]]. unfold CreateRendition.
  destruct err as [e|]; [split; auto|].
  destruct (existsb _ (renditions d)) eqn:Ee; [split; auto|].
  cbn [snd]. unfold rend_inv. cbn [renditions next_rend_id]. split; [|split].
  - apply Forall_app. split; [|constructor; [cbn; lia|constructor]].
    eapply Forall_impl; [|exact H1]. intros r Hr. apply Nat.lt_lt_succ_r. exact Hr.
  - rewrite map_app. cbn [map rend_id]. apply NoDup_app; [exact H2|constructor; [intros []|constructor]|].
    intros x Hx [<-|[]]. apply in_map_iff in Hx as (r & Hr & Hin).
    rewrite Forall_forall in H1. specialize (H1 r Hin). lia.
  - rewrite map_app. cbn [map rend_job_id resolution].
    apply NoDup_app; [exact H3|constructor; [intros []|constructor]|].
    intros x Hx [<-|[]]. apply in_map_iff in Hx as (r & Hr & Hin).
    injection Hr as Hj Hres.
    assert (Ht : existsb (fun r => String.eqb (rend_job_id r) jid && String.eqb (resolution r) res)
                   (renditions d) = true).
    { apply existsb_exists. exists r. split; [exact Hin|]. rewrite Hj, Hres, !String.eqb_refl. reflexivity. }
    congruence.
Qed.

Lemma sys_step_rend_inv (w w' : World) :
  rend_inv (db w) -> sys_step w w' -> rend_inv (db w').
Proof.
  intros Hi Hs. destruct Hs as [out new_id req w|env now wid w|l1 l2 t id w Hs|l1 l2 lk w Hs].
  - destruct (CreateJob_handler_cases out new_id req w) as [->|(_ & _ & _ & _ & ->)];
      [exact Hi|]. cbn [db].
    set (d1 := mkDB _ _ _).
    assert (Hd1 : rend_inv d1) by exact Hi.
    clearbody d1. revert d1 Hd1. generalize 0%nat as i.
    induction (match req_resolutions req with [] => default_resolutions | rs => rs end)
      as [|res rs IH]; intros i d1 Hd1; [exact Hd1|].
    cbn [create_renditions]. apply IH. apply CreateRendition_inv; exact Hd1.
  - destruct (worker_step_keys env now wid w) as [Hk Hn]. exact (rend_inv_keys _ _ Hk Hn Hi).
  - exact Hi.
  - exact Hi.
Qed.

(** In every reachable state the rendition rows have distinct ids, and no
    job has two renditions of the same resolution: the uniqueness check of
    [CreateRendition] and the id sequence hold up under every submission
    and every worker iteration, which only write output keys. *)
Theorem reachable_renditions_unique (w : World) (Hr : reachable w) :
  NoDup (map rend_id (renditions (db w))) /\
  NoDup (map (fun r => (rend_job_id r, resolution r)) (renditions (db w))).
Proof.
  assert (H : rend_inv (db w)).
  { induction Hr as [|w w' Hr IH Hs].
    - split; [constructor|split; constructor].
    - exact (sys_step_rend_inv w w' IH Hs). }
  destruct H as [_ H]. exact H.
Qed.

Lemma insert_by_resolution_perm (r : Rendition) (l : list Rendition) :
  Permutation (insert_by_resolution r l) (r :: l).
Proof.
  induction l as [|x l IH]; cbn [insert_by_resolution]; [reflexivity|].
  destruct (String.leb (resolution r) (resolution x)); [reflexivity|].
  rewrite IH. apply perm_swap.
Qed.

Lemma sort_by_resolution_perm (l : list Rendition) :
  Permutation (sort_by_resolution l) l.
Proof.
  induction l as [|x l IH]; cbn [sort_by_resolution]; [reflexivity|].
  rewrite insert_by_resolution_perm, IH. reflexivity.
Qed.

Lemma insert_by_resolution_sorted (r : Rendition) (l : list Rendition) :
  Sorted (fun a b => String.leb (resolution a) (resolution b) = true) l ->
  Sorted (fun a b => String.leb (resolution a) (resolution b) = true) (insert_by_resolution r l).
Proof.
  induction l as [|x l IH]; intros Hs; cbn [insert_by_resolution].
  - repeat constructor.
  - destruct (String.leb (resolution r) (resolution x)) eqn:E.
    + constructor; [exact Hs|constructor; exact E].
    + apply Sorted_inv in Hs as [Hl Hh].
      assert (Hxr : String.leb (resolution x) (resolution r) = true)
        by (destruct (String.leb_total (resolution r) (resolution x)); congruence).
      constructor; [apply IH; exact Hl|].
      destruct l as [|y l]; cbn [insert_by_resolution]; [constructor; exact Hxr|].
      destruct (String.leb (resolution r) (resolution y)); constructor; [exact Hxr|].
      apply HdRel_inv in Hh. exact Hh.
Qed.

(** [GetRenditionsByJobID] returns exactly the rendition rows of the job,
    each once (a permutation of the rows whose job id matches), ordered by
    resolution text. *)
Theorem GetRenditionsByJobID_sorted_rows (d : DB) (id : string) :
  Permutation (GetRenditionsByJobID d id)
              (filter (fun r => String.eqb (rend_job_id r) id) (renditions d)) /\
  Sorted (fun a b => String.leb (resolution a) (resolution b) = true) (GetRenditionsByJobID d id).
Proof.
  unfold GetRenditionsByJobID. split; [apply sort_by_resolution_perm|].
  induction (filter _ (renditions d)) as [|x l IH]; cbn [sort_by_resolution]; [constructor|].
  apply insert_by_resolution_sorted; exact IH.
Qed.

Lemma hex_digit_inj (n m : nat) :
  (n < 16)%nat -> (m < 16)%nat -> hex_digit n = hex_digit m -> n = m.
Proof.
  intros Hn Hm.
  do 16 (destruct n as [|n];
         [do 16 (destruct m as [|m]; [intros H; vm_compute in H; first [reflexivity|discriminate H]|]); lia|]).
  lia.
Qed.

Lemma hex_byte_inj (b1 b2 : Byte.byte) : hex_byte b1 = hex_byte b2 -> b1 = b2.
Proof.
  intros H.
  assert (Hhi : hex_digit (Byte.to_nat b1 / 16) = hex_digit (Byte.to_nat b2 / 16))
    by exact (f_equal (fun l => nth 0 l "0"%char) H).
  assert (Hlo : hex_digit (Byte.to_nat b1 mod 16) = hex_digit (Byte.to_nat b2 mod 16))
    by exact (f_equal (fun l => nth 1 l "0"%char) H).
  pose proof (Byte.to_nat_bounded b1) as B1. pose proof (Byte.to_nat_bounded b2) as B2.
  apply hex_digit_inj in Hhi; [|apply Nat.Div0.div_lt_upper_bound; lia..].
  apply hex_digit_inj in Hlo; [|apply Nat.mod_upper_bound; lia..].
  assert (E : Byte.to_nat b1 = Byte.to_nat b2).
  { rewrite (Nat.div_mod_eq (Byte.to_nat b1) 16), (Nat.div_mod_eq (Byte.to_nat b2) 16). lia. }
  pose proof (Byte.of_to_nat b1) as O1. pose proof (Byte.of_to_nat b2) as O2.
  rewrite E in O1. congruence.
Qed.

Lemma hex_encode_inj (l1 l2 : list Byte.byte) : hex_encode l1 = hex_encode l2 -> l1 = l2.
Proof.
  revert l2. induction l1 as [|b1 l1 IH]; intros [|b2 l2]; cbn [hex_encode flat_map hex_byte app];
    intros H; try discriminate; [reflexivity|].
  f_equal.
  - apply hex_byte_inj. exact (f_equal (firstn 2) H).
  - apply IH. exact (f_equal (skipn 2) H).
Qed.

Lemma hex_encode_length (l : list Byte.byte) : length (hex_encode l) = (2 * length l)%nat.
Proof. induction l as [|b l IH]; cbn [hex_encode flat_map hex_byte app length]; [reflexivity|]. unfold hex_encode in IH. lia. Qed.

Lemma app_inj_length {A} (a1 a2 b1 b2 : list A) :
  length a1 = length a2 -> a1 ++ b1 = a2 ++ b2 -> a1 = a2 /\ b1 = b2.
Proof.
  revert a2. induction a1 as [|x a1 IH]; intros [|y a2] Hl H; try discriminate; [split; auto|].
  injection Hl as Hl. injection H as -> H. destruct (IH a2 Hl H) as [-> ->]. split; reflexivity.
Qed.

Lemma uuid_split (bs : list Byte.byte) :
  bs = firstn 4 bs ++ firstn 2 (skipn 4 bs) ++ firstn 2 (skipn 6 bs) ++
       firstn 2 (skipn 8 bs) ++ skipn 10 bs.
Proof. do 10 (destruct bs as [|? bs]; [reflexivity|]). reflexivity. Qed.

Lemma hex_digit_in (n : nat) : In (hex_digit n) (list_ascii_of_string "0123456789abcdef").
Proof.
  unfold hex_digit. destruct (nth_error _ n) eqn:E.
  - eapply nth_error_In; exact E.
  - left; reflexivity.
Qed.

Lemma hex_encode_digits (l : list Byte.byte) :
  Forall (fun c => In c (list_ascii_of_string "0123456789abcdef")) (hex_encode l).
Proof.
  induction l as [|b l IH]; cbn [hex_encode flat_map hex_byte app]; [constructor|].
  constructor; [apply hex_digit_in|]. constructor; [apply hex_digit_in|exact IH].
Qed.

(** [uuidToString] gives "" for a NULL id; for a valid 16-byte id it gives
    the 36-character canonical form: dashes at positions 8, 13, 18 and 23,
    every other character a lower-case hexadecimal digit. Distinct valid
    ids give distinct strings, so the job id strings the API hands out (and
    the worker uses as keys) identify the rows. *)
Theorem uuidToString_canonical :
  (forall u, uuid_valid u = false -> uuidToString u = ""%string) /\
  (forall u, uuid_valid u = true -> length (uuid_bytes u) = 16%nat ->
     String.length (uuidToString u) = 36%nat /\
     String.get 8 (uuidToString u) = Some "-"%char /\
     String.get 13 (uuidToString u) = Some "-"%char /\
     String.get 18 (uuidToString u) = Some "-"%char /\
     String.get 23 (uuidToString u) = Some "-"%char /\
     Forall (fun c => c = "-"%char \/ In c (list_ascii_of_string "0123456789abcdef"))
            (list_ascii_of_string (uuidToString u))) /\
  (forall u1 u2, uuid_valid u1 = true -> uuid_valid u2 = true ->
     length (uuid_bytes u1) = 16%nat -> length (uuid_bytes u2) = 16%nat ->
     uuidToString u1 = uuidToString u2 -> uuid_bytes u1 = uuid_bytes u2).
Proof.
  split; [|split].
  - intros [bs v] Hv. cbn in Hv. subst v. reflexivity.
  - intros [bs v] Hv Hl. cbn in Hv, Hl. subst v. unfold uuidToString. cbn [uuid_valid uuid_bytes].
    split; [|split; [|split; [|split; [|split]]]].
    6: { unfold uuid_string. rewrite list_ascii_of_string_of_list_ascii.
         assert (Hd : forall l, Forall (fun c => c = "-"%char \/
                                   In c (list_ascii_of_string "0123456789abcdef")) (hex_encode l)).
         { intros l. eapply Forall_impl; [|apply hex_encode_digits]. intros c Hc; right; exact Hc. }
         repeat (apply Forall_app; split; [apply Hd|]; constructor; [left; reflexivity|]).
         apply Hd. }
    all: do 16 (destruct bs as [|? bs]; [discriminate|]); destruct bs; [|discriminate]; reflexivity.
  - intros [bs1 v1] [bs2 v2] Hv1 Hv2 Hl1 Hl2 H. cbn in *. subst v1 v2.
    unfold uuidToString, uuid_string in H. cbn [uuid_valid uuid_bytes] in H.
    apply (f_equal list_ascii_of_string) in H. rewrite !list_ascii_of_string_of_list_ascii in H.
    apply app_inj_length in H as [E1 H];
      [|rewrite !hex_encode_length, !length_firstn, ?length_skipn, Hl1, Hl2; reflexivity].
    apply (f_equal (@tl ascii)) in H. cbn [tl] in H.
    apply app_inj_length in H as [E2 H];
      [|rewrite !hex_encode_length, !length_firstn, ?length_skipn, Hl1, Hl2; reflexivity].
    apply (f_equal (@tl ascii)) in H. cbn [tl] in H.
    apply app_inj_length in H as [E3 H];
      [|rewrite !hex_encode_length, !length_firstn, ?length_skipn, Hl1, Hl2; reflexivity].
    apply (f_equal (@tl ascii)) in H. cbn [tl] in H.
    apply app_inj_length in H as [E4 H];
      [|rewrite !hex_encode_length, !length_firstn, ?length_skipn, Hl1, Hl2; reflexivity].
    apply (f_equal (@tl ascii)) in H. cbn [tl] in H. rename H into E5.
    apply hex_encode_inj in E1, E2, E3, E4, E5.
    rewrite (uuid_split bs1), (uuid_split bs2). cbn [skipn] in E1. congruence.
Qed.

Lemma xtob_hex_byte (b : Byte.byte) :
  xtob (hex_digit (Byte.to_nat b / 16)) (hex_digit (Byte.to_nat b mod 16)) = Some b.
Proof. destruct b; vm_compute; reflexivity. Qed.

Lemma uuid_Parse_string (bs : list Byte.byte) :
  length bs = 16%nat -> uuid_Parse (uuid_string bs) = inr bs.
Proof.
  intros Hl.
  do 16 (destruct bs as [|? bs]; [discriminate|]). destruct bs; [|discriminate]. clear Hl.
  unfold uuid_Parse, uuid_string. rewrite list_ascii_of_string_of_list_ascii.
  cbn -[hex_digit Byte.to_nat Nat.div Nat.modulo xtob].
  unfold parse_dashed. cbn -[hex_digit Byte.to_nat Nat.div Nat.modulo xtob].
  rewrite !xtob_hex_byte. reflexivity.
Qed.

(** [uuid.Parse] reads back what [uuidToString] writes: for a valid 16-byte
    id, parsing its string gives the same 16 bytes, so the string is a
    canonical token, and [processJob] on it looks the row up under that very
    string and names the outputs after it. The tokens [CreateJob] pushes are
    of this form. *)
Theorem uuidToString_parses_back (env : Env) (now : Z) (wid : string) (d : DB)
  (u : PgUUID) (Hv : uuid_valid u = true) (Hl : length (uuid_bytes u) = 16%nat) :
  uuid_Parse (uuidToString u) = inr (uuid_bytes u) /\
  canonical_token (uuidToString u) = true /\
  processJob env now wid (uuidToString u) d =
  processJob_with_id env now wid (uuidToString u) (uuidToString u) d.
Proof.
  destruct u as [bs v]. cbn in Hv, Hl. subst v.
  assert (Hp : uuid_Parse (uuidToString (mkPgUUID bs true)) = inr bs)
    by (unfold uuidToString; cbn [uuid_valid uuid_bytes]; apply uuid_Parse_string, Hl).
  split; [exact Hp|].
  unfold canonical_token, processJob. rewrite Hp. split; [apply String.eqb_refl|reflexivity].
Qed.

Lemma worker_step_pending_snoc (env : Env) (now : Z) (wid : string) (w : World)
  (rest : list string) (jobID : string) :
  pending w = rest ++ [jobID] -> pending (worker_step env now wid w) = rest.
Proof.
  intros Hp. unfold worker_step. rewrite Hp, pop_right_snoc.
  unfold worker_iteration, Lock. cbn [db pending dead scheduled locks].
  destruct (existsb _ _); [reflexivity|]. cbn [negb db].
  destruct (processJob env now wid jobID (db w)) as [d2 [e|]];
    unfold Unlock; cbn [pending]; [|reflexivity].
  apply handleJobFailure_queues.
Qed.

(** The pending queue is first in, first out: [CreateJob] pushes on the
    left ([LPUSH]) and [Pop] takes from the right ([BRPOP]), so after a
    submission the next worker step serves the oldest waiting token, and
    the new job's token stays queued behind the others, if the submission
    answered 201 and its push succeeded; a failed push leaves nothing
    queued for the new job. *)
Theorem pending_queue_fifo (env : Env) (now : Z) (wid : string) (out : ApiOutcomes)
  (new_id : string) (req : CreateJobRequest) (w : World) (rest : list string) (a : string)
  (Hp : pending w = rest ++ [a]) :
  pending (worker_step env now wid (snd (CreateJob_handler out new_id req w))) =
  (if Nat.eqb (fst (CreateJob_handler out new_id req w)) 201
   then match push_err out with None => [new_id] | Some _ => [] end
   else []) ++ rest.
Proof.
  unfold CreateJob_handler.
  destruct (String.eqb _ "");
    [cbn [fst snd Nat.eqb app]; apply (worker_step_pending_snoc _ _ _ _ _ a Hp)|].
  unfold CreateJob_query.
  destruct (create_job_err out);
    [cbn [fst snd Nat.eqb app]; apply (worker_step_pending_snoc _ _ _ _ _ a Hp)|].
  destruct (GetJob (db w) new_id);
    [cbn [fst snd Nat.eqb app]; apply (worker_step_pending_snoc _ _ _ _ _ a Hp)|].
  cbn [fst snd Nat.eqb job_id].
  destruct (push_err out); cbn [app]; apply (worker_step_pending_snoc _ _ _ _ _ a);
    cbn [pending]; rewrite Hp; reflexivity.
Qed.

(* ------------------------------------------------------------------ *)
(** ** Instances of the further properties at concrete inputs *)

Lemma processJob_unknown_resolution_untouched_witness :
  (forall res,
     transcode_err (mkEnv None (fun _ => None) None
                      (fun res => Transcode (fun _ => None) "in.mp4" ("out_" ++ res) res)
                      (fun _ => None)) res =
     Transcode (fun _ => None) "in.mp4" ("out_" ++ res) res)%string /\
  NoDup (map rend_id (renditions (db (snd (CreateJob_handler api_ok demo_job
            (mkCreateJobRequest "uploads/a/v.mp4" ["4k"; "480p"]%string) empty_world))))) /\
  Forall2 (fun r0 r1 => ~ In (resolution r0) ["480p"; "720p"; "1080p"]%string -> r1 = r0)
    (renditions (db (snd (CreateJob_handler api_ok demo_job
            (mkCreateJobRequest "uploads/a/v.mp4" ["4k"; "480p"]%string) empty_world))))
    (renditions (fst (processJob
        (mkEnv None (fun _ => None) None
           (fun res => Transcode (fun _ => None) "in.mp4" ("out_" ++ res) res)
           (fun _ => None))
        0 worker_a demo_job
        (db (snd (CreateJob_handler api_ok demo_job
            (mkCreateJobRequest "uploads/a/v.mp4" ["4k"; "480p"]%string) empty_world)))))).
Proof.
  assert (He : forall res,
     transcode_err (mkEnv None (fun _ => None) None
                      (fun res => Transcode (fun _ => None) "in.mp4" ("out_" ++ res)%string res)
                      (fun _ => None)) res =
     Transcode (fun _ => None) "in.mp4" ("out_" ++ res)%string res) by (intros; reflexivity).
  assert (Hn : NoDup (map rend_id (renditions (db (snd (CreateJob_handler api_ok demo_job
            (mkCreateJobRequest "uploads/a/v.mp4" ["4k"; "480p"]%string) empty_world)))))).
  { vm_compute. constructor; [intros [H|[]]; discriminate|constructor; [intros []|constructor]]. }
  split; [exact He|split; [exact Hn|]].
  exact (processJob_unknown_resolution_untouched _ (fun _ => None) "in.mp4"
           (fun res => "out_" ++ res)%string 0 worker_a demo_job _ He Hn).
Defined.

Lemma GetUploadURL_worker_input_name_witness :
  GetUploadURL "clip.MP4" demo_job (fun k => Some ("https://s3/" ++ k)%string) =
    ReplyOK (("https://s3/uploads/" ++ demo_job ++ "/input.mp4")%string,
             ("uploads/" ++ demo_job ++ "/input.mp4")%string) /\
  input_name ("uploads/" ++ demo_job ++ "/input.mp4") = "input"%string /\
  (forall tok res, output_key_for tok (input_name ("uploads/" ++ demo_job ++ "/input.mp4")) res =
                   ("outputs/" ++ tok ++ "/input_" ++ res ++ ".mp4")%string).
Proof.
  assert (H : GetUploadURL "clip.MP4" demo_job (fun k => Some ("https://s3/" ++ k)%string) =
    ReplyOK (("https://s3/uploads/" ++ demo_job ++ "/input.mp4")%string,
             ("uploads/" ++ demo_job ++ "/input.mp4")%string)) by (vm_compute; reflexivity).
  split; [exact H|]. exact (GetUploadURL_worker_input_name _ _ _ _ _ H).
Defined.

Lemma GetDownloadURL_worker_output_key_witness :
  contains_dotdot demo_job = false /\ contains_dotdot "input" = false /\
  contains_dotdot "720p" = false /\ (forall r', "720p"%string <> (r' ++ ".")%string) /\
  (String.length (output_key_for demo_job "input" "720p") <= 500)%nat /\
  GetDownloadURL (output_key_for demo_job "input" "720p")
    (fun k => Some ("https://s3/" ++ k)%string) =
  ReplyOK ("https://s3/" ++ output_key_for demo_job "input" "720p")%string.
Proof.
  assert (H1 : contains_dotdot demo_job = false) by reflexivity.
  assert (H2 : contains_dotdot "input" = false) by reflexivity.
  assert (H3 : contains_dotdot "720p" = false) by reflexivity.
  assert (H4 : forall r', "720p"%string <> (r' ++ ".")%string).
  { intros r' E.
    assert (L : String.length r' = 3%nat)
      by (apply (f_equal String.length) in E; rewrite length_app in E; cbn in E; lia).
    destruct r' as [|a [|b [|c [|x r']]]]; try discriminate L. cbn in E. congruence. }
  assert (H5 : (String.length (output_key_for demo_job "input" "720p") <= 500)%nat)
    by (vm_compute; lia).
  split; [exact H1|split; [exact H2|split; [exact H3|split; [exact H4|split; [exact H5|]]]]].
  exact (GetDownloadURL_worker_output_key demo_job "input" "720p" _ _ H1 H2 H3 H4 H5 eq_refl).
Defined.

Lemma Lock_keepalive_witness :
  RedisLock.Lock worker_a 0 demo_job [] = (true, snd (RedisLock.Lock worker_a 0 demo_job [])) /\
  RedisLock.ticks_within 0 [120; 240; 360] = true /\
  RedisLock.get 400 (RedisLock.LockKeyPrefix ++ demo_job)
    (RedisLock.extend_at worker_a demo_job [120; 240; 360]
       (snd (RedisLock.Lock worker_a 0 demo_job []))) = Some worker_a.
Proof.
  assert (H1 : RedisLock.Lock worker_a 0 demo_job [] =
               (true, snd (RedisLock.Lock worker_a 0 demo_job []))) by reflexivity.
  assert (H2 : RedisLock.ticks_within 0 [120; 240; 360] = true) by reflexivity.
  split; [exact H1|split; [exact H2|]].
  apply (Lock_keepalive worker_a 0 demo_job [120; 240; 360] [] _ H1 H2).
  cbn [RedisLock.last_tick]. unfold RedisLock.DefaultLockTTL. lia.
Defined.

Lemma ResetStalledJob_requeues_witness :
  let d := snd (StartJobProcessing (db demo_submitted) 0 demo_job worker_a) in
  NoDup (map job_id (jobs d)) /\
  (forall j, GetJob d demo_job = Some j -> status j = Processing ->
   let j' := mkJob demo_job (input_key j) Queued (error_message j)
                   (retry_count j) (max_retries j) None None in
   fst (ResetStalledJob d demo_job) = Some j' /\
   GetJob (snd (ResetStalledJob d demo_job)) demo_job = Some j' /\
   (forall now, claimable now demo_job j' = true)) /\
  (forall j, GetJob d demo_job = Some j -> status j <> Processing ->
   ResetStalledJob d demo_job = (None, d)) /\
  (GetJob d demo_job = None -> ResetStalledJob d demo_job = (None, d)) /\
  (forall id', id' <> demo_job ->
   GetJob (snd (ResetStalledJob d demo_job)) id' = GetJob d id').
Proof.
  intros d.
  assert (Hn : NoDup (map job_id (jobs d))).
  { vm_compute. constructor; [intros []|constructor]. }
  split; [exact Hn|]. exact (ResetStalledJob_requeues d demo_job Hn).
Defined.

Lemma worker_step_consumes_token_witness :
  pending demo_submitted = [] ++ [demo_job] /\
  pending (worker_step env_ok 0 worker_a demo_submitted) = [] /\
  locks (worker_step env_ok 0 worker_a demo_submitted) = locks demo_submitted /\
  (existsb (fun l => String.eqb (fst l) demo_job) (locks demo_submitted) = true ->
   worker_step env_ok 0 worker_a demo_submitted =
   mkWorld (db demo_submitted) [] (dead demo_submitted) (scheduled demo_submitted)
           (locks demo_submitted)) /\
  (canonical_token demo_job = true -> GetJob (db demo_submitted) demo_job = None ->
   worker_step env_ok 0 worker_a demo_submitted =
   mkWorld (db demo_submitted) [] (dead demo_submitted) (scheduled demo_submitted)
           (locks demo_submitted)).
Proof.
  assert (Hp : pending demo_submitted = [] ++ [demo_job]) by (vm_compute; reflexivity).
  split; [exact Hp|].
  exact (worker_step_consumes_token env_ok 0 worker_a demo_submitted [] demo_job Hp).
Defined.

Lemma reachable_renditions_unique_witness :
  reachable demo_submitted /\
  NoDup (map rend_id (renditions (db demo_submitted))) /\
  NoDup (map (fun r => (rend_job_id r, resolution r)) (renditions (db demo_submitted))).
Proof.
  assert (Hr : reachable demo_submitted)
    by exact (reach_step _ _ reach_init (step_submit _ _ _ _)).
  split; [exact Hr|]. exact (reachable_renditions_unique demo_submitted Hr).
Defined.

Lemma pending_queue_fifo_witness :
  pending demo_submitted = [] ++ [demo_job] /\
  pending (worker_step env_ok 0 worker_a
             (snd (CreateJob_handler api_flaky "7a9b0c1d-5e6f-4a1b-8c2d-3e4f5a6b7c8d"%string
                     (mkCreateJobRequest "uploads/b/w.mov" []) demo_submitted))) =
  (if Nat.eqb (fst (CreateJob_handler api_flaky "7a9b0c1d-5e6f-4a1b-8c2d-3e4f5a6b7c8d"%string
                      (mkCreateJobRequest "uploads/b/w.mov" []) demo_submitted)) 201
   then match push_err api_flaky with
        | None => ["7a9b0c1d-5e6f-4a1b-8c2d-3e4f5a6b7c8d"%string]
        | Some _ => []
        end
   else []) ++ [].
Proof.
  assert (Hp : pending demo_submitted = [] ++ [demo_job]) by (vm_compute; reflexivity).
  split; [exact Hp|].
  exact (pending_queue_fifo env_ok 0 worker_a api_flaky
           "7a9b0c1d-5e6f-4a1b-8c2d-3e4f5a6b7c8d"%string
           (mkCreateJobRequest "uploads/b/w.mov" []) demo_submitted [] demo_job Hp).
Defined.

Lemma uuidToString_parses_back_witness :
  uuid_valid (mkPgUUID demo_uuid_bytes true) = true /\
  length (uuid_bytes (mkPgUUID demo_uuid_bytes true)) = 16%nat /\
  uuid_Parse (uuidToString (mkPgUUID demo_uuid_bytes true)) = inr demo_uuid_bytes /\
  canonical_token (uuidToString (mkPgUUID demo_uuid_bytes true)) = true /\
  processJob env_ok 0 worker_a (uuidToString (mkPgUUID demo_uuid_bytes true)) (db demo_submitted) =
  processJob_with_id env_ok 0 worker_a (uuidToString (mkPgUUID demo_uuid_bytes true))
    (uuidToString (mkPgUUID demo_uuid_bytes true)) (db demo_submitted).
Proof.
  assert (Hv : uuid_valid (mkPgUUID demo_uuid_bytes true) = true) by reflexivity.
  assert (Hl : length (uuid_bytes (mkPgUUID demo_uuid_bytes true)) = 16%nat) by reflexivity.
  split; [exact Hv|]. split; [exact Hl|].
  exact (uuidToString_parses_back env_ok 0 worker_a (db demo_submitted)
           (mkPgUUID demo_uuid_bytes true) Hv Hl).
Defined.
